(** * Route configuration utilities of the router

    A shallow embedding of [packages/router/src/utils/config.ts]:
    the validator ([validateConfig], [validateNode], [getFullPath]), the
    normaliser ([standardizeConfig]), the outlet helpers ([getOutlet],
    [sortByMatchingOutlets]) and the injector lookup
    ([getClosestRouteInjector]).

    JavaScript values are modelled by their TypeScript types: an optional
    property [p?: T] is an [option T] ([None] is [undefined]); truthiness
    is written out where the source relies on it (the empty string is
    falsy; functions, classes, arrays and injector objects are truthy). *)

From Stdlib Require Import Ascii String List Arith Lia Permutation.
From stdpp Require Import base option list strings.

Set Warnings "-register-all".
Local Open Scope string_scope.

(** ** Opaque collaborators

    The router only compares these by identity or tests their presence. *)

(** [Type<any>]: a component class.  [EmptyOutletComponent] is the
    built-in placeholder imported from [../components/empty_outlet]. *)
Inductive Component : Type :=
| EmptyOutletComponent
| UserComponent (id : nat).

Inductive EnvironmentInjector : Type := Injector (id : nat).
Inductive UrlMatcher : Type := Matcher (id : nat).
Inductive LoadChildren : Type := LoadChildrenCallback (id : nat).
Inductive Guard : Type := GuardToken (id : nat).

(** Modelled from the spec: the declaration of [Route] lives in
    [../models], which is outside this file; the path-match mode is
    ['full'|'prefix'] (spec, data model). *)
Inductive PathMatch : Type := prefix | full.

(** Modelled from the spec: [PRIMARY_OUTLET] is imported from [../shared];
    the spec names the constant "primary". *)
Definition PRIMARY_OUTLET : string := "primary".

(** ** Route nodes

    Modelled from the spec: the interface [Route] is declared in
    [../models]; the fields are those of the spec's data model, which are
    also all the properties the functions below read or write. *)
Inductive Route : Type := mkRoute {
  path : option string;
  pathMatch : option PathMatch;
  matcher : option UrlMatcher;
  component : option Component;
  redirectTo : option string;
  outlet : option string;
  canActivate : option (list Guard);
  children : option (list Route);
  loadChildren : option LoadChildren;
  _injector : option EnvironmentInjector;
  _loadedRoutes : option (list Route);
  _loadedInjector : option EnvironmentInjector
}.

Definition Routes : Type := list Route.

(** Modelled from the spec: [ActivatedRouteSnapshot] is declared in
    [../router_state]; only [routeConfig] (the originating node, [null]
    for the root) and [parent] (absent for the root) are read here.  The
    parent chain of a snapshot is finite: snapshots form a rooted tree. *)
Inductive ActivatedRouteSnapshot : Type := mkSnapshot {
  routeConfig : option Route;
  parent : option ActivatedRouteSnapshot
}.

(** ** Truthiness *)

(** [!!s] for a string: every string but the empty one is truthy. *)
Definition truthyString (s : string) : bool :=
  match s with
  | EmptyString => false
  | String _ _ => true
  end.

(** [!!x] for an optional string property. *)
Definition truthyOptString (o : option string) : bool :=
  match o with
  | None => false
  | Some s => truthyString s
  end.

(** [!!x] for an optional property holding an object, an array, a class or
    a function: truthy exactly when present. *)
Definition present {A : Type} (o : option A) : bool :=
  match o with
  | None => false
  | Some _ => true
  end.

(** ** Accessors (lines 16-26) *)

Definition getLoadedRoutes (route : Route) : option (list Route) :=
  _loadedRoutes route.

Definition getLoadedInjector (route : Route) : option EnvironmentInjector :=
  _loadedInjector route.

Definition getProvidersInjector (route : Route) : option EnvironmentInjector :=
  _injector route.

(** ** Validation (lines 28-123) *)

(** The [Error]s thrown by [validateNode], one constructor per [throw],
    each carrying the [fullPath] interpolated in its message.  The first
    two throws of the source (an [undefined] element, an element that is
    an array) concern values that are not of type [Route]; the element
    type of [Routes] excludes them. *)
Inductive ConfigError : Type :=
| NamedOutletWithoutContent (fullPath : string)
| RedirectToAndChildren (fullPath : string)
| RedirectToAndLoadChildren (fullPath : string)
| ChildrenAndLoadChildren (fullPath : string)
| RedirectToAndComponent (fullPath : string)
| RedirectToAndCanActivate (fullPath : string)
| PathAndMatcher (fullPath : string)
| MissingContent (fullPath : string)
| MissingPathOrMatcher (fullPath : string)
| PathStartsWithSlash (fullPath : string)
| MissingPathMatch (fullPath : string) (redirect : string).

(** Outcome of a [void] function that may throw. *)
Inductive Outcome : Type :=
| Returns
| Throws (e : ConfigError).

(** Sequencing of statements: a throw aborts what follows. *)
Definition andThen (o : Outcome) (k : Outcome) : Outcome :=
  match o with
  | Returns => k
  | Throws e => Throws e
  end.

Declare Scope outcome_scope.
Notation "a ;; b" := (andThen a b)
  (at level 100, b at level 200, right associativity) : outcome_scope.
Local Open Scope outcome_scope.

(** [if (c) throw new Error(e)] *)
Definition throwIf (c : bool) (e : ConfigError) : Outcome :=
  if c then Throws e else Returns.

(** The global [ngDevMode] is declared outside this file.  [None] stands
    for [typeof ngDevMode === 'undefined'], [Some b] for a declared flag of
    truthiness [b]. *)
Definition NgDevMode : Type := option bool.

(** [typeof ngDevMode === 'undefined' || ngDevMode] *)
Definition devModeEnabled (ngDevMode : NgDevMode) : bool :=
  match ngDevMode with
  | None => true
  | Some b => b
  end.

(** [getFullPath] (lines 110-123); [currentRoute] is a [Route], hence
    truthy. *)
Definition getFullPath (parentPath : string) (currentRoute : Route) : string :=
  match truthyString parentPath, path currentRoute with
  | false, None => ""
  | false, Some p => if truthyString p then p else ""
  | true, None => parentPath ++ "/"
  | true, Some p => if truthyString p then parentPath ++ "/" ++ p
                    else parentPath ++ "/"
  end.

(** [route.path.charAt(0) === '/'] *)
Definition startsWithSlash (p : string) : bool :=
  match p with
  | String c _ => if Ascii.eqb c "/"%char then true else false
  | EmptyString => false
  end.

(** [route.path === ''] *)
Definition isEmptyPath (o : option string) : bool :=
  match o with
  | Some EmptyString => true
  | _ => false
  end.

(** [route.outlet && route.outlet !== PRIMARY_OUTLET] *)
Definition namedOutlet (o : option string) : bool :=
  match o with
  | None => false
  | Some s => truthyString s && negb (String.eqb s PRIMARY_OUTLET)
  end.

(** The body of the [ngDevMode] block of [validateNode] (lines 55-103):
    the checks in source order; the first that fires throws. *)
Definition validateShape (route : Route) (fullPath : string) : Outcome :=
  throwIf (negb (present (component route)) && negb (present (children route))
           && negb (present (loadChildren route)) && namedOutlet (outlet route))
          (NamedOutletWithoutContent fullPath) ;;
  throwIf (truthyOptString (redirectTo route) && present (children route))
          (RedirectToAndChildren fullPath) ;;
  throwIf (truthyOptString (redirectTo route) && present (loadChildren route))
          (RedirectToAndLoadChildren fullPath) ;;
  throwIf (present (children route) && present (loadChildren route))
          (ChildrenAndLoadChildren fullPath) ;;
  throwIf (truthyOptString (redirectTo route) && present (component route))
          (RedirectToAndComponent fullPath) ;;
  throwIf (truthyOptString (redirectTo route) && present (canActivate route))
          (RedirectToAndCanActivate fullPath) ;;
  throwIf (truthyOptString (path route) && present (matcher route))
          (PathAndMatcher fullPath) ;;
  throwIf (negb (present (redirectTo route)) && negb (present (component route))
           && negb (present (children route)) && negb (present (loadChildren route)))
          (MissingContent fullPath) ;;
  throwIf (negb (present (path route)) && negb (present (matcher route)))
          (MissingPathOrMatcher fullPath) ;;
  throwIf (match path route with Some p => startsWithSlash p | None => false end)
          (PathStartsWithSlash fullPath) ;;
  match redirectTo route with
  | Some target =>
      throwIf (isEmptyPath (path route) && negb (present (pathMatch route)))
              (MissingPathMatch fullPath target)
  | None => Returns
  end.

(** [validateNode] (lines 37-108).  The call [validateConfig(route.children,
    fullPath)] is the inner loop [go], the [for] loop of [validateConfig]
    run on the children. *)
Fixpoint validateNode (ngDevMode : NgDevMode) (route : Route) (fullPath : string)
  : Outcome :=
  (if devModeEnabled ngDevMode then validateShape route fullPath else Returns) ;;
  match route with
  | mkRoute _ _ _ _ _ _ _ (Some cs) _ _ _ _ =>
      (fix go (config : list Route) : Outcome :=
         match config with
         | [] => Returns
         | r :: rest =>
             validateNode ngDevMode r (getFullPath fullPath r) ;; go rest
         end) cs
  | mkRoute _ _ _ _ _ _ _ None _ _ _ _ => Returns
  end.

(** [validateConfig] (lines 28-35): the [for] loop over [config]. *)
Fixpoint validateConfigFrom (ngDevMode : NgDevMode) (config : Routes)
    (parentPath : string) : Outcome :=
  match config with
  | [] => Returns
  | route :: rest =>
      validateNode ngDevMode route (getFullPath parentPath route) ;;
      validateConfigFrom ngDevMode rest parentPath
  end.

(** [validateConfig(config)] with the default [parentPath = '']. *)
Definition validateConfig (ngDevMode : NgDevMode) (config : Routes) : Outcome :=
  validateConfigFrom ngDevMode config "".

(** ** Normalisation (lines 125-135) *)

(** [!c.component && (children || c.loadChildren) &&
    (c.outlet && c.outlet !== PRIMARY_OUTLET)], where [children] is the
    mapped array, present exactly when [r.children] is. *)
Definition needsEmptyOutlet (c : Route) : bool :=
  negb (present (component c))
  && (present (children c) || present (loadChildren c))
  && namedOutlet (outlet c).

(** [{...r, children}] *)
Definition withChildren (r : Route) (cs : list Route) : Route :=
  mkRoute (path r) (pathMatch r) (matcher r) (component r) (redirectTo r)
          (outlet r) (canActivate r) (Some cs) (loadChildren r)
          (_injector r) (_loadedRoutes r) (_loadedInjector r).

(** [c.component = x] *)
Definition withComponent (c : Route) (x : Component) : Route :=
  mkRoute (path c) (pathMatch c) (matcher c) (Some x) (redirectTo c)
          (outlet c) (canActivate c) (children c) (loadChildren c)
          (_injector c) (_loadedRoutes c) (_loadedInjector c).

(** [standardizeConfig] on values: the result as a tree, up to the
    identity of the objects (the store-level version is
    [Store.standardizeConfig] below). *)
Fixpoint standardizeConfig (r : Route) : Route :=
  let c :=
    match r with
    | mkRoute _ _ _ _ _ _ _ (Some cs) _ _ _ _ =>
        withChildren r (map standardizeConfig cs)
    | mkRoute _ _ _ _ _ _ _ None _ _ _ _ => r
    end in
  if needsEmptyOutlet c then withComponent c EmptyOutletComponent else c.

(** ** Outlets (lines 137-150) *)

(** [route.outlet || PRIMARY_OUTLET] *)
Definition getOutlet (route : Route) : string :=
  match outlet route with
  | Some o => if truthyString o then o else PRIMARY_OUTLET
  | None => PRIMARY_OUTLET
  end.

(** [sortByMatchingOutlets]: [filter] builds a new array, [push] appends
    the second [filter] to it; [routes] itself is only read. *)
Definition sortByMatchingOutlets (routes : Routes) (outletName : string) : Routes :=
  let sortedConfig := filter (fun r => getOutlet r = outletName) routes in
  (sortedConfig ++ filter (fun r => getOutlet r <> outletName) routes)%list.

(** ** Closest injector (lines 152-186) *)

(** The body of the [for] loop, started at the snapshot [s]:
    [route?._loadedInjector] first, then [route?._injector], then
    [s = s.parent]. *)
Fixpoint walkParents (s : ActivatedRouteSnapshot) : option EnvironmentInjector :=
  match s with
  | mkSnapshot route up =>
      match route ≫= _loadedInjector with
      | Some i => Some i
      | None =>
          match route ≫= _injector with
          | Some i => Some i
          | None =>
              match up with
              | Some p => walkParents p
              | None => None
              end
          end
      end
  end.

(** [getClosestRouteInjector]; the argument is [None] for a falsy
    [snapshot], the result [None] for [null]. *)
Definition getClosestRouteInjector (snapshot : option ActivatedRouteSnapshot)
  : option EnvironmentInjector :=
  match snapshot with
  | None => None
  | Some snapshot =>
      match routeConfig snapshot ≫= _injector with
      | Some i => Some i
      | None =>
          match parent snapshot with
          | Some s => walkParents s
          | None => None
          end
      end
  end.

(** ** Sizes of route trees *)

(** Nesting depth through [children]: the recursion depth of
    [standardizeConfig] and [validateNode]. *)
Fixpoint depth (r : Route) : nat :=
  match r with
  | mkRoute _ _ _ _ _ _ _ (Some cs) _ _ _ _ =>
      S (foldr (fun c n => Nat.max (depth c) n) 0 cs)
  | mkRoute _ _ _ _ _ _ _ None _ _ _ _ => 1
  end.

(** Number of nodes, through [children] and [_loadedRoutes]. *)
Fixpoint size (r : Route) : nat :=
  match r with
  | mkRoute _ _ _ _ _ _ _ ch _ _ lr _ =>
      S (match ch with Some cs => list_sum (map size cs) | None => 0 end
         + match lr with Some cs => list_sum (map size cs) | None => 0 end)
  end.

(** The nodes of a route tree, in the order [validateConfig] visits them
    (a node, then its children, then its right siblings). *)
Inductive InTree (r : Route) : Routes -> Prop :=
| InTree_here rest : InTree r (r :: rest)
| InTree_child p cs rest :
    children p = Some cs -> InTree r cs -> InTree r (p :: rest)
| InTree_later p rest : InTree r rest -> InTree r (p :: rest).

(** The ancestors of a snapshot, nearest first. *)
Fixpoint ancestors (s : ActivatedRouteSnapshot) : list ActivatedRouteSnapshot :=
  match s with
  | mkSnapshot _ (Some p) => p :: ancestors p
  | mkSnapshot _ None => []
  end.

(** A snapshot whose node carries no injector at all (or that has no
    node). *)
Definition noInjector (s : ActivatedRouteSnapshot) : Prop :=
  routeConfig s ≫= _loadedInjector = None /\ routeConfig s ≫= _injector = None.

(** ** Route objects in a store

    [standardizeConfig] allocates objects and assigns to a property.  To
    state that it leaves its argument alone, route objects live in a
    store and are passed by reference, as in the source. *)
Module Store.

(** A reference to a route object. *)
Abbreviation loc := nat (only parsing).

(** A route object: the properties of [Route]; the arrays [children] and
    [_loadedRoutes] hold references.  (No statement of the source writes
    to an array that it did not create: arrays are values here.) *)
Record RouteObj : Type := mkObj {
  obj_path : option string;
  obj_pathMatch : option PathMatch;
  obj_matcher : option UrlMatcher;
  obj_component : option Component;
  obj_redirectTo : option string;
  obj_outlet : option string;
  obj_canActivate : option (list Guard);
  obj_children : option (list loc);
  obj_loadChildren : option LoadChildren;
  obj_injector : option EnvironmentInjector;
  obj_loadedRoutes : option (list loc);
  obj_loadedInjector : option EnvironmentInjector
}.

(** The store: object [l] is the [l]-th element; allocation appends. *)
Abbreviation heap := (list RouteObj) (only parsing).

(** Computations on the store; [None] is a run that does not return
    (a dangling reference, or the recursion budget exhausted). *)
Definition M (A : Type) : Type := heap -> option (A * heap).

Definition ret {A : Type} (a : A) : M A := fun h => Some (a, h).

Definition bind {A B : Type} (m : M A) (k : A -> M B) : M B :=
  fun h => match m h with
           | Some (a, h') => k a h'
           | None => None
           end.

Definition stuck {A : Type} : M A := fun _ => None.

(** Read the object behind a reference. *)
Definition load (l : loc) : M RouteObj :=
  fun h => match h !! l with
           | Some o => Some (o, h)
           | None => None
           end.

(** Allocate a new object. *)
Definition alloc (o : RouteObj) : M loc :=
  fun h => Some (length h, (h ++ [o])%list).

(** Overwrite the object behind a reference. *)
Definition store (l : loc) (o : RouteObj) : M unit :=
  fun h => match h !! l with
           | Some _ => Some (tt, <[l := o]> h)
           | None => None
           end.

Notation "x <- m ;; k" := (bind m (fun x => k))
  (at level 100, m at next level, k at level 200, right associativity,
   only parsing) : outcome_scope.

(** [Array.prototype.map]: the callback runs on the elements from left
    to right; the results form a new array. *)
Fixpoint mapM {A B : Type} (f : A -> M B) (xs : list A) : M (list B) :=
  match xs with
  | [] => ret []
  | x :: rest =>
      y <- f x ;;
      ys <- mapM f rest ;;
      ret (y :: ys)
  end.

(** [{...r, children}] *)
Definition withChildren (o : RouteObj) (cs : list loc) : RouteObj :=
  mkObj (obj_path o) (obj_pathMatch o) (obj_matcher o) (obj_component o)
        (obj_redirectTo o) (obj_outlet o) (obj_canActivate o) (Some cs)
        (obj_loadChildren o) (obj_injector o) (obj_loadedRoutes o)
        (obj_loadedInjector o).

(** [c.component = x] *)
Definition withComponent (o : RouteObj) (x : Component) : RouteObj :=
  mkObj (obj_path o) (obj_pathMatch o) (obj_matcher o) (Some x)
        (obj_redirectTo o) (obj_outlet o) (obj_canActivate o) (obj_children o)
        (obj_loadChildren o) (obj_injector o) (obj_loadedRoutes o)
        (obj_loadedInjector o).

(** [!c.component && (children || c.loadChildren) &&
    (c.outlet && c.outlet !== PRIMARY_OUTLET)] *)
Definition needsEmptyOutlet (children : option (list loc)) (c : RouteObj) : bool :=
  negb (present (obj_component c))
  && (present children || present (obj_loadChildren c))
  && namedOutlet (obj_outlet c).

(** [standardizeConfig] (lines 128-135) on references.  [fuel] bounds the
    depth of the recursion. *)
Fixpoint standardizeConfig (fuel : nat) (r : loc) : M loc :=
  match fuel with
  | O => stuck
  | S fuel' =>
      o <- load r ;;
      children <- match obj_children o with
                  | Some cs =>
                      cs' <- mapM (standardizeConfig fuel') cs ;;
                      ret (Some cs')
                  | None => ret None
                  end ;;
      c <- alloc (match children with
                  | Some cs' => withChildren o cs'
                  | None => o
                  end) ;;
      oc <- load c ;;
      if needsEmptyOutlet children oc
      then _ <- store c (withComponent oc EmptyOutletComponent) ;; ret c
      else ret c
  end.

(** The object behind [l] and everything reachable from it through
    [children] and [_loadedRoutes] form the tree [t]. *)
Inductive repr (h : heap) : loc -> Route -> Prop :=
| repr_node l o t :
    h !! l = Some o ->
    obj_path o = path t ->
    obj_pathMatch o = pathMatch t ->
    obj_matcher o = matcher t ->
    obj_component o = component t ->
    obj_redirectTo o = redirectTo t ->
    obj_outlet o = outlet t ->
    obj_canActivate o = canActivate t ->
    option_Forall2 (Forall2 (repr h)) (obj_children o) (children t) ->
    obj_loadChildren o = loadChildren t ->
    obj_injector o = _injector t ->
    option_Forall2 (Forall2 (repr h)) (obj_loadedRoutes o) (_loadedRoutes t) ->
    obj_loadedInjector o = _loadedInjector t ->
    repr h l t.

(** Two route objects agree on every property but [component] and
    [children]. *)
Definition sameButComponentAndChildren (a b : RouteObj) : Prop :=
  obj_path a = obj_path b /\
  obj_pathMatch a = obj_pathMatch b /\
  obj_matcher a = obj_matcher b /\
  obj_redirectTo a = obj_redirectTo b /\
  obj_outlet a = obj_outlet b /\
  obj_canActivate a = obj_canActivate b /\
  obj_loadChildren a = obj_loadChildren b /\
  obj_injector a = obj_injector b /\
  obj_loadedRoutes a = obj_loadedRoutes b /\
  obj_loadedInjector a = obj_loadedInjector b.

End Store.

(** [normalises fuel h r t]: run on the reference [r] of a store [h] in
    which [r] represents the tree [t], the store-level [standardizeConfig]
    returns a reference [c] to an object [oc] allocated by the call; the
    store has only grown, so every object that existed before, the
    argument [o] included, is unchanged; [oc] agrees with [o] on every
    property but [component] and [children]; and [c] represents the
    value-level result. *)
Definition normalises (fuel : nat) (h : Store.heap) (r : Store.loc) (t : Route)
  : Prop :=
  exists (c : Store.loc) (ext : Store.heap) (o oc : Store.RouteObj),
    Store.standardizeConfig fuel r h = Some (c, (h ++ ext)%list) /\
    length h <= c /\
    h !! r = Some o /\
    (h ++ ext)%list !! c = Some oc /\
    Store.sameButComponentAndChildren oc o /\
    Store.repr (h ++ ext)%list c (standardizeConfig t).

(** ** Sample configurations *)

(** [{}] *)
Definition blankRoute : Route :=
  mkRoute None None None None None None None None None None None None.

(** [{path: 'a', matcher: m}] *)
Definition pathAndMatcherRoute : Route :=
  mkRoute (Some "a") None (Some (Matcher 0)) None None None None None None
          None None None.

(** [{path: '', matcher: m, component: C}] *)
Definition emptyPathMatcherRoute : Route :=
  mkRoute (Some "") None (Some (Matcher 0)) (Some (UserComponent 0)) None None
          None None None None None None.

(** [{path: 'a', outlet: 'aux'}] *)
Definition auxOnlyRoute : Route :=
  mkRoute (Some "a") None None None None (Some "aux") None None None None None
          None.

(** [{path: 'a', redirectTo: 'b', outlet: ''}] *)
Definition emptyOutletRedirectRoute : Route :=
  mkRoute (Some "a") None None None (Some "b") (Some "") None None None None
          None None.

(** [{path: 'a', redirectTo: 'b', component: C}] *)
Definition redirectAndComponentRoute : Route :=
  mkRoute (Some "a") None None (Some (UserComponent 0)) (Some "b") None None
          None None None None None.

(** [{path: 'a', redirectTo: '', component: C, canActivate: [g], children: []}] *)
Definition emptyRedirectRoute : Route :=
  mkRoute (Some "a") None None (Some (UserComponent 0)) (Some "") None
          (Some [GuardToken 0]) (Some []) None None None None.

(** [{path: '', redirectTo: 'x'}] *)
Definition emptyPathRedirectRoute : Route :=
  mkRoute (Some "") None None None (Some "x") None None None None None None
          None.

(** [{path: '', redirectTo: 'x', pathMatch: 'full'}] *)
Definition fullMatchRedirectRoute : Route :=
  mkRoute (Some "") (Some full) None None (Some "x") None None None None None
          None None.

(** [{path: 'home', component: C, children: [r]}] *)
Definition parentOf (r : Route) : Route :=
  mkRoute (Some "home") None None (Some (UserComponent 1)) None None None
          (Some [r]) None None None None.

(** [{path: 'b', component: C}] *)
Definition leafRoute : Route :=
  mkRoute (Some "b") None None (Some (UserComponent 2)) None None None None
          None None None None.

(** [{path: 'a', children: [{path: 'b', component: C}], outlet}] *)
Definition componentlessParent (outlet : option string) : Route :=
  mkRoute (Some "a") None None None None outlet None (Some [leafRoute]) None
          None None None.

(** [{path: 'lazy', loadChildren: f}] with both injectors attached. *)
Definition bothInjectorsRoute : Route :=
  mkRoute (Some "lazy") None None None None None None None
          (Some (LoadChildrenCallback 0)) (Some (Injector 1)) None
          (Some (Injector 2)).

(** The snapshot chain root -> lazy -> child -> grandchild. *)
Definition rootSnapshot : ActivatedRouteSnapshot := mkSnapshot None None.

Definition lazySnapshot : ActivatedRouteSnapshot :=
  mkSnapshot (Some bothInjectorsRoute) (Some rootSnapshot).

Definition childSnapshot : ActivatedRouteSnapshot :=
  mkSnapshot (Some leafRoute) (Some lazySnapshot).

Definition grandChildSnapshot : ActivatedRouteSnapshot :=
  mkSnapshot (Some leafRoute) (Some childSnapshot).

(** A store holding [leafRoute] at reference 0 and
    [componentlessParent (Some "aux")], whose only child is reference 0,
    at reference 1. *)
Definition leafObj : Store.RouteObj :=
  Store.mkObj (Some "b") None None (Some (UserComponent 2)) None None None
              None None None None None.

Definition auxParentObj : Store.RouteObj :=
  Store.mkObj (Some "a") None None None None (Some "aux") None (Some [0])
              None None None None.

Definition sampleStore : Store.heap := [leafObj; auxParentObj].

(** ** Nodes in visiting order *)

(** The node [r] and the nodes below it, each with the [fullPath] that
    [validateNode] receives for it, in the order of the calls. *)
Fixpoint nodesOf (r : Route) (fullPath : string) : list (Route * string) :=
  (r, fullPath) ::
  match r with
  | mkRoute _ _ _ _ _ _ _ (Some cs) _ _ _ _ =>
      (fix go (config : list Route) : list (Route * string) :=
         match config with
         | [] => []
         | c :: rest => (nodesOf c (getFullPath fullPath c) ++ go rest)%list
         end) cs
  | mkRoute _ _ _ _ _ _ _ None _ _ _ _ => []
  end.

(** The calls of [validateNode] made by [validateConfig(config,
    parentPath)] when nothing throws. *)
Fixpoint preorder (config : Routes) (parentPath : string)
  : list (Route * string) :=
  match config with
  | [] => []
  | r :: rest =>
      (nodesOf r (getFullPath parentPath r) ++ preorder rest parentPath)%list
  end.

(** The checks of [validateShape] on a sequence of nodes, one after the
    other. *)
Definition checkAll (nodes : list (Route * string)) : Outcome :=
  foldr (fun n k => validateShape (fst n) (snd n) ;; k) Returns nodes.

(** The [fullPath] interpolated in an error's message. *)
Definition errorPath (e : ConfigError) : string :=
  match e with
  | NamedOutletWithoutContent fp | RedirectToAndChildren fp
  | RedirectToAndLoadChildren fp | ChildrenAndLoadChildren fp
  | RedirectToAndComponent fp | RedirectToAndCanActivate fp
  | PathAndMatcher fp | MissingContent fp | MissingPathOrMatcher fp
  | PathStartsWithSlash fp | MissingPathMatch fp _ => fp
  end.

(** [route.path], read as a string in a template literal that is only
    reached for a truthy path; the empty string otherwise. *)
Definition pathOrEmpty (r : Route) : string :=
  match path r with
  | Some p => p
  | None => ""
  end.

(** A list of strings without its leading empty strings. *)
Fixpoint dropEmpty (ps : list string) : list string :=
  match ps with
  | "" :: rest => dropEmpty rest
  | _ => ps
  end.

(** The [fullPath] of the last node of a chain of nested nodes, outermost
    first: [getFullPath] applied along the chain, as [validateConfig] and
    [validateNode] do, from [parentPath]. *)
Definition fullPathAlong (parentPath : string) (chain : list Route) : string :=
  foldl getFullPath parentPath chain.

(** A chain of nested nodes of a configuration, outermost first: a route
    of [config], one of its children, one of that child's children, and
    so on. *)
Inductive Chain : Routes -> list Route -> Prop :=
| Chain_last config r : In r config -> Chain config [r]
| Chain_step config p cs chain :
    In p config -> children p = Some cs -> Chain cs chain ->
    Chain config (p :: chain).

(** ** Ill-typed elements of the top-level array

    The first two checks of [validateNode] (lines 39-53) are for elements
    that are not routes: [undefined] (a hole left by an extra comma) and a
    nested array.  An element of the array given to [validateConfig] is
    one of those or a [Route]; the [children] arrays inside a [Route]
    stay of type [Routes]. *)
Inductive ConfigEntry : Type :=
| UndefinedEntry
| ArrayEntry
| RouteEntry (r : Route).

(** What [validateConfig] can throw on such an array: the two errors of
    lines 39-53, the errors of the other checks, and the [TypeError] of
    reading [route.children] (line 105) when [route] is [undefined]. *)
Inductive EntryError : Type :=
| UndefinedRoute (fullPath : string)
| ArrayAsRoute (fullPath : string)
| InvalidRoute (e : ConfigError)
| TypeErrorReadingChildren.

Inductive EntryOutcome : Type :=
| EntryReturns
| EntryThrows (e : EntryError).

Definition entryOutcome (o : Outcome) : EntryOutcome :=
  match o with
  | Returns => EntryReturns
  | Throws e => EntryThrows (InvalidRoute e)
  end.

(** [getFullPath] (lines 110-123) on any element: [parentPath] for
    [undefined]; an array is truthy and has no [path]. *)
Definition getFullPathOfEntry (parentPath : string) (e : ConfigEntry) : string :=
  match e with
  | UndefinedEntry => parentPath
  | ArrayEntry => if truthyString parentPath then parentPath ++ "/" else ""
  | RouteEntry r => getFullPath parentPath r
  end.

(** [validateNode] (lines 37-108) on any element. *)
Definition validateEntry (ngDevMode : NgDevMode) (e : ConfigEntry)
    (fullPath : string) : EntryOutcome :=
  match e with
  | UndefinedEntry =>
      if devModeEnabled ngDevMode then EntryThrows (UndefinedRoute fullPath)
      else EntryThrows TypeErrorReadingChildren
  | ArrayEntry =>
      if devModeEnabled ngDevMode then EntryThrows (ArrayAsRoute fullPath)
      else EntryReturns
  | RouteEntry r => entryOutcome (validateNode ngDevMode r fullPath)
  end.

(** [validateConfig] (lines 28-35) on an array of any elements. *)
Fixpoint validateEntries (ngDevMode : NgDevMode) (config : list ConfigEntry)
    (parentPath : string) : EntryOutcome :=
  match config with
  | [] => EntryReturns
  | e :: rest =>
      match validateEntry ngDevMode e (getFullPathOfEntry parentPath e) with
      | EntryReturns => validateEntries ngDevMode rest parentPath
      | EntryThrows err => EntryThrows err
      end
  end.

(** ** More sample configurations *)

(** [{path: '/a', component: C}] *)
Definition slashRoute : Route :=
  mkRoute (Some "/a") None None (Some (UserComponent 0)) None None None None
          None None None None.

(** [{path: 'a', children: [], loadChildren: f}] *)
Definition childrenAndLazyRoute : Route :=
  mkRoute (Some "a") None None None None None None (Some [])
          (Some (LoadChildrenCallback 0)) None None None.

(** [{path: 'a'}] *)
Definition pathOnlyRoute : Route :=
  mkRoute (Some "a") None None None None None None None None None None None.

(** [{path: '', component: C, children: [{path: 'b', component: C}]}] *)
Definition shellRoute : Route :=
  mkRoute (Some "") None None (Some (UserComponent 1)) None None None
          (Some [leafRoute]) None None None None.

(** [{path: 'lazy', loadChildren: f, outlet: 'aux'}] *)
Definition lazyAuxRoute : Route :=
  mkRoute (Some "lazy") None None None None (Some "aux") None None
          (Some (LoadChildrenCallback 0)) None None None.

(** A snapshot whose node carries only a lazy-loaded injector, below the
    root. *)
Definition lazyOnlyRoute : Route :=
  mkRoute (Some "lazy") None None None None None None None
          (Some (LoadChildrenCallback 0)) None None (Some (Injector 7)).

Definition lazyOnlySnapshot : ActivatedRouteSnapshot :=
  mkSnapshot (Some lazyOnlyRoute) (Some rootSnapshot).

(** ** Resolved outlets, in words

    Two readings of "the resolved outlet of a node", written on the
    [outlet] property alone, to compare [getOutlet] with. *)

(** The node's outlet, defaulting to "primary" when unset. *)
Definition outletOrPrimaryWhenUnset (route : Route) : string :=
  match outlet route with
  | Some o => o
  | None => "primary"
  end.

(** [resolvesTo route name]: the node's outlet, defaulting to "primary"
    when unset or empty, is [name]. *)
Definition resolvesTo (route : Route) (name : string) : Prop :=
  (outlet route = Some name /\ name <> "") \/
  (name = "primary" /\ (outlet route = None \/ outlet route = Some "")).

(** [{path: 'x', component: C, outlet: 'aux'}] and
    [{path: 'y', component: C, outlet: ''}] *)
Definition auxLeafRoute : Route :=
  mkRoute (Some "x") None None (Some (UserComponent 3)) None (Some "aux") None
          None None None None None.

Definition emptyOutletLeafRoute : Route :=
  mkRoute (Some "y") None None (Some (UserComponent 4)) None (Some "") None
          None None None None None.

(** * Properties *)

(** ** Validation *)

Section Validation.

Lemma andThen_throws_l (a b : Outcome) :
  (exists e, a = Throws e) -> exists e, (a ;; b) = Throws e.
Proof. intros [e ->]. exists e. reflexivity. Qed.

Lemma andThen_throws_r (a b : Outcome) :
  (exists e, b = Throws e) -> exists e, (a ;; b) = Throws e.
Proof. intros [e ->]. destruct a as [|e']; simpl; eauto. Qed.

Lemma throwIf_true (c : bool) (e : ConfigError) :
  c = true -> exists e', throwIf c e = Throws e'.
Proof. intros ->. exists e. reflexivity. Qed.

(** The recursive call of [validateNode] is [validateConfigFrom] on the
    children. *)
Lemma validateNode_unfold (g : NgDevMode) (route : Route) (fullPath : string) :
  validateNode g route fullPath =
  ((if devModeEnabled g then validateShape route fullPath else Returns) ;;
   match children route with
   | Some cs => validateConfigFrom g cs fullPath
   | None => Returns
   end).
Proof.
  destruct route as [p pm m c rt o ca [cs|] lc i lr li]; simpl; [|reflexivity].
  f_equal.
  induction cs as [|r rest IH]; simpl; [reflexivity|].
  rewrite IH. reflexivity.
Qed.

(** A node that fails its own checks makes validation of every tree
    that contains it throw, whatever precedes it. *)
Lemma validateConfigFrom_rejects (g : NgDevMode) (r : Route) (config : Routes) :
  devModeEnabled g = true ->
  (forall fullPath, exists e, validateShape r fullPath = Throws e) ->
  InTree r config ->
  forall parentPath, exists e, validateConfigFrom g config parentPath = Throws e.
Proof.
  intros Hdev Hbad Hin.
  induction Hin as [rest | p cs rest Hcs Hin IH | p rest Hin IH];
    intros parentPath; simpl; rewrite validateNode_unfold, Hdev.
  - apply andThen_throws_l, andThen_throws_l, Hbad.
  - apply andThen_throws_l, andThen_throws_r. rewrite Hcs. apply IH.
  - apply andThen_throws_r, IH.
Qed.

(** With the checks disabled nothing is ever thrown. *)
Lemma validateConfigFrom_disabled (g : NgDevMode) (n : nat) :
  devModeEnabled g = false ->
  forall (config : Routes) (parentPath : string),
    Forall (fun r => size r < n) config ->
    validateConfigFrom g config parentPath = Returns.
Proof.
  intros Hdev. induction n as [|n IH]; intros config parentPath Hsz.
  - destruct config as [|r rest]; [reflexivity|].
    inversion Hsz; subst. lia.
  - induction Hsz as [|r rest Hr Hrest IHrest]; simpl; [reflexivity|].
    rewrite validateNode_unfold, Hdev, IHrest. simpl.
    destruct r as [p pm m c rt o ca [cs|] lc i lr li]; simpl in *; [|reflexivity].
    rewrite IH; [reflexivity|].
    apply Forall_forall. intros x Hx.
    apply list_elem_of_In in Hx.
    assert (size x <= list_sum (map size cs)); [|lia].
    clear -Hx. induction cs as [|y ys IHys]; simpl in *; [tauto|].
    destruct Hx as [->|Hx]; [lia|]. specialize (IHys Hx). lia.
Qed.

Lemma present_of_ne {A : Type} (o : option A) : o <> None -> present o = true.
Proof. destruct o; [reflexivity | congruence]. Qed.

Lemma truthyString_of_ne (s : string) : s <> "" -> truthyString s = true.
Proof. destruct s; [congruence | reflexivity]. Qed.

(** [fires n]: the ([n]+1)-th check of [validateShape] throws (unless an
    earlier one already did). *)
Tactic Notation "fires" integer(n) :=
  unfold validateShape;
  do n apply andThen_throws_r;
  apply andThen_throws_l, throwIf_true.

(** C5 (amended).  With the checks enabled, a tree containing a node that
    has a non-empty path together with a matcher, or a node that has
    neither a path nor a matcher, is rejected. *)
Theorem validateConfig_path_xor_matcher
    (g : NgDevMode) (config : Routes) (r : Route) :
  devModeEnabled g = true ->
  InTree r config ->
  ((exists p, path r = Some p /\ p <> "") /\ matcher r <> None) \/
  (path r = None /\ matcher r = None) ->
  exists e, validateConfig g config = Throws e.
Proof.
  intros Hdev Hin Hbad.
  apply validateConfigFrom_rejects with (r := r); [assumption| |assumption].
  intros fullPath.
  destruct Hbad as [[(p & Hp & Hne) Hm] | [Hp Hm]].
  - fires 6. rewrite Hp. simpl.
    rewrite (truthyString_of_ne _ Hne), (present_of_ne _ Hm). reflexivity.
  - fires 8. rewrite Hp, Hm. reflexivity.
Qed.

Lemma validateConfig_path_xor_matcher_witness :
  exists e, validateConfig None [parentOf pathAndMatcherRoute; blankRoute]
            = Throws e.
Proof.
  apply (validateConfig_path_xor_matcher None _ pathAndMatcherRoute).
  - reflexivity.
  - apply InTree_child with (cs := [pathAndMatcherRoute]);
      [reflexivity | apply InTree_here].
  - left. split; [exists "a"; split; [reflexivity | discriminate] | discriminate].
Defined.

(** C5, as stated, fails: with the checks compiled out nothing is
    rejected, and with the checks enabled a node with the empty path and a
    matcher passes. *)
Lemma validateConfig_path_xor_matcher_counterexample :
  (path pathAndMatcherRoute <> None /\ matcher pathAndMatcherRoute <> None /\
   validateConfig (Some false) [pathAndMatcherRoute] = Returns) /\
  (path emptyPathMatcherRoute <> None /\ matcher emptyPathMatcherRoute <> None /\
   validateConfig None [emptyPathMatcherRoute] = Returns).
Proof. repeat split; (discriminate || reflexivity). Qed.

(** C6 (amended).  With the checks enabled, a tree containing a node whose
    outlet is a non-empty name other than [PRIMARY_OUTLET] and that has no
    component, no children and no lazy-load descriptor is rejected. *)
Theorem validateConfig_named_outlet_needs_content
    (g : NgDevMode) (config : Routes) (r : Route) (o : string) :
  devModeEnabled g = true ->
  InTree r config ->
  outlet r = Some o -> o <> "" -> o <> PRIMARY_OUTLET ->
  component r = None -> children r = None -> loadChildren r = None ->
  exists e, validateConfig g config = Throws e.
Proof.
  intros Hdev Hin Ho Hne Hprim Hc Hch Hlc.
  apply validateConfigFrom_rejects with (r := r); [assumption| |assumption].
  intros fullPath. fires 0.
  rewrite Hc, Hch, Hlc, Ho. simpl.
  rewrite (truthyString_of_ne _ Hne). simpl.
  apply negb_true_iff, String.eqb_neq, Hprim.
Qed.

Lemma validateConfig_named_outlet_needs_content_witness :
  exists e, validateConfig None [parentOf auxOnlyRoute] = Throws e.
Proof.
  apply (validateConfig_named_outlet_needs_content None _ auxOnlyRoute "aux").
  - reflexivity.
  - apply InTree_child with (cs := [auxOnlyRoute]);
      [reflexivity | apply InTree_here].
  - reflexivity.
  - discriminate.
  - discriminate.
  - reflexivity.
  - reflexivity.
  - reflexivity.
Defined.

(** C6, as stated, fails: with the checks compiled out nothing is
    rejected, and with the checks enabled an outlet set to the empty
    string (which is not [PRIMARY_OUTLET]) is let through. *)
Lemma validateConfig_named_outlet_counterexample :
  (outlet auxOnlyRoute = Some "aux" /\ "aux" <> PRIMARY_OUTLET /\
   component auxOnlyRoute = None /\ children auxOnlyRoute = None /\
   loadChildren auxOnlyRoute = None /\
   validateConfig (Some false) [auxOnlyRoute] = Returns) /\
  (outlet emptyOutletRedirectRoute = Some "" /\ "" <> PRIMARY_OUTLET /\
   component emptyOutletRedirectRoute = None /\
   children emptyOutletRedirectRoute = None /\
   loadChildren emptyOutletRedirectRoute = None /\
   validateConfig None [emptyOutletRedirectRoute] = Returns).
Proof. repeat split; (discriminate || reflexivity). Qed.

(** C7 (amended).  With the checks enabled, a tree containing a node whose
    [redirectTo] is a non-empty string and that also has children, a
    lazy-load descriptor, a component or activation guards is rejected. *)
Theorem validateConfig_redirect_exclusive
    (g : NgDevMode) (config : Routes) (r : Route) (target : string) :
  devModeEnabled g = true ->
  InTree r config ->
  redirectTo r = Some target -> target <> "" ->
  children r <> None \/ loadChildren r <> None \/ component r <> None \/
  canActivate r <> None ->
  exists e, validateConfig g config = Throws e.
Proof.
  intros Hdev Hin Hrt Hne Hwith.
  apply validateConfigFrom_rejects with (r := r); [assumption| |assumption].
  intros fullPath.
  assert (Ht : truthyOptString (redirectTo r) = true)
    by (rewrite Hrt; apply truthyString_of_ne, Hne).
  destruct Hwith as [H | [H | [H | H]]]; apply present_of_ne in H.
  - fires 1. rewrite Ht, H. reflexivity.
  - fires 2. rewrite Ht, H. reflexivity.
  - fires 4. rewrite Ht, H. reflexivity.
  - fires 5. rewrite Ht, H. reflexivity.
Qed.

Lemma validateConfig_redirect_exclusive_witness :
  exists e, validateConfig None [blankRoute; redirectAndComponentRoute] = Throws e.
Proof.
  apply (validateConfig_redirect_exclusive None _ redirectAndComponentRoute "b").
  - reflexivity.
  - apply InTree_later, InTree_here.
  - reflexivity.
  - discriminate.
  - right. right. left. discriminate.
Defined.

(** C7, as stated, fails: with the checks compiled out nothing is
    rejected, and with the checks enabled a node whose [redirectTo] is the
    empty string passes although it has a component, guards and
    children. *)
Lemma validateConfig_redirect_exclusive_counterexample :
  (redirectTo redirectAndComponentRoute <> None /\
   component redirectAndComponentRoute <> None /\
   validateConfig (Some false) [redirectAndComponentRoute] = Returns) /\
  (redirectTo emptyRedirectRoute <> None /\
   component emptyRedirectRoute <> None /\
   canActivate emptyRedirectRoute <> None /\
   children emptyRedirectRoute <> None /\
   validateConfig None [emptyRedirectRoute] = Returns).
Proof. repeat split; (discriminate || reflexivity). Qed.

(** [validateShape] only throws [MissingPathMatch] on a node without
    [pathMatch]. *)
Lemma validateShape_MissingPathMatch
    (r : Route) (fullPath fullPath' target : string) :
  validateShape r fullPath = Throws (MissingPathMatch fullPath' target) ->
  pathMatch r = None.
Proof.
  unfold validateShape, throwIf.
  repeat match goal with
         | |- context [if ?c then Throws _ else Returns] =>
             destruct c; simpl; [discriminate|]
         end.
  destruct (redirectTo r); [|discriminate].
  destruct (pathMatch r); [|reflexivity].
  rewrite andb_false_r. discriminate.
Qed.

(** C8 (amended).  For a node with [redirectTo] set and the empty path:
    with the checks enabled and [pathMatch] unspecified every tree
    containing the node is rejected; with [pathMatch: 'full'] the node's
    checks never throw the missing-[pathMatch] error, and the node alone,
    with nothing else set, validates. *)
Theorem validateConfig_empty_path_redirect
    (g : NgDevMode) (config : Routes) (r : Route) (target : string) :
  path r = Some "" -> redirectTo r = Some target ->
  (devModeEnabled g = true -> pathMatch r = None -> InTree r config ->
   exists e, validateConfig g config = Throws e) /\
  (pathMatch r = Some full ->
   (forall fullPath fullPath' target',
      validateShape r fullPath <> Throws (MissingPathMatch fullPath' target')) /\
   (r = mkRoute (Some "") (Some full) None None (Some target) None None None
                None None None None ->
    validateConfig g [r] = Returns)).
Proof.
  intros Hp Hrt. split.
  - intros Hdev Hpm Hin.
    apply validateConfigFrom_rejects with (r := r); [assumption| |assumption].
    intros fullPath. unfold validateShape.
    do 10 apply andThen_throws_r.
    rewrite Hrt. apply throwIf_true. rewrite Hp, Hpm. reflexivity.
  - intros Hpm. split.
    + intros fullPath fullPath' target' Hthrow.
      apply validateShape_MissingPathMatch in Hthrow. congruence.
    + intros ->. unfold validateConfig. simpl.
      destruct (devModeEnabled g), target; reflexivity.
Qed.

Lemma validateConfig_empty_path_redirect_witness :
  (exists e, validateConfig None [emptyPathRedirectRoute] = Throws e) /\
  validateConfig None [fullMatchRedirectRoute] = Returns.
Proof.
  split.
  - apply (validateConfig_empty_path_redirect
             None [emptyPathRedirectRoute] emptyPathRedirectRoute "x");
      [reflexivity | reflexivity | reflexivity | reflexivity | apply InTree_here].
  - apply (validateConfig_empty_path_redirect
             None [] fullMatchRedirectRoute "x");
      reflexivity.
Defined.

(** C8, as stated, fails: with the checks compiled out the node without
    [pathMatch] is not rejected. *)
Lemma validateConfig_empty_path_redirect_counterexample :
  path emptyPathRedirectRoute = Some "" /\
  redirectTo emptyPathRedirectRoute <> None /\
  pathMatch emptyPathRedirectRoute = None /\
  validateConfig (Some false) [emptyPathRedirectRoute] = Returns.
Proof. repeat split; (discriminate || reflexivity). Qed.

End Validation.

(** ** Induction on route trees *)

Section RouteInduction.

Lemma size_child (r c : Route) (cs : list Route) :
  children r = Some cs -> In c cs -> size c < size r.
Proof.
  destruct r as [p pm m co rt o ca ch lc i lr li]; simpl.
  intros -> Hin.
  assert (size c <= list_sum (map size cs)); [|lia].
  clear -Hin. induction cs as [|y ys IH]; simpl in *; [tauto|].
  destruct Hin as [->|Hin]; [lia|]. specialize (IH Hin). lia.
Qed.

Lemma size_loaded (r c : Route) (cs : list Route) :
  _loadedRoutes r = Some cs -> In c cs -> size c < size r.
Proof.
  destruct r as [p pm m co rt o ca ch lc i lr li]; simpl.
  intros -> Hin.
  assert (size c <= list_sum (map size cs)); [|lia].
  clear -Hin. induction cs as [|y ys IH]; simpl in *; [tauto|].
  destruct Hin as [->|Hin]; [lia|]. specialize (IH Hin). lia.
Qed.

(** Induction on a route tree, with the hypothesis on all children and
    on all cached loaded routes. *)
Lemma Route_subtrees_ind (P : Route -> Prop) :
  (forall r,
      (forall cs, children r = Some cs -> Forall P cs) ->
      (forall cs, _loadedRoutes r = Some cs -> Forall P cs) ->
      P r) ->
  forall r, P r.
Proof.
  intros Hstep r.
  remember (size r) as n eqn:Hn.
  revert r Hn. induction n as [n IH] using lt_wf_ind. intros r ->.
  apply Hstep; intros cs Hcs; apply Forall_forall; intros c Hc;
    apply list_elem_of_In in Hc.
  - apply (IH (size c)); [eapply size_child; eassumption | reflexivity].
  - apply (IH (size c)); [eapply size_loaded; eassumption | reflexivity].
Qed.

(** Induction on a route tree with the hypothesis on all children. *)
Lemma Route_children_ind (P : Route -> Prop) :
  (forall r, (forall cs, children r = Some cs -> Forall P cs) -> P r) ->
  forall r, P r.
Proof.
  intros Hstep. apply Route_subtrees_ind. intros r Hch _. apply Hstep, Hch.
Qed.

Lemma depth_child (r c : Route) (cs : list Route) :
  children r = Some cs -> In c cs -> depth c < depth r.
Proof.
  destruct r as [p pm m co rt o ca ch lc i lr li]; simpl.
  intros -> Hin.
  assert (depth c <= foldr (fun c n => Nat.max (depth c) n) 0 cs); [|lia].
  clear -Hin. induction cs as [|y ys IH]; simpl in *; [tauto|].
  destruct Hin as [->|Hin]; [lia|]. specialize (IH Hin). lia.
Qed.

End RouteInduction.

(** ** Normalisation *)

Section Normalisation.

Lemma standardizeConfig_unfold (r : Route) :
  standardizeConfig r =
  let c := match children r with
           | Some cs => withChildren r (map standardizeConfig cs)
           | None => r
           end in
  if needsEmptyOutlet c then withComponent c EmptyOutletComponent else c.
Proof. destruct r as [p pm m co rt o ca [cs|] lc i lr li]; reflexivity. Qed.

(** The decision to insert the placeholder only looks at the node itself. *)
Lemma standardizeConfig_component (r : Route) :
  component (standardizeConfig r) =
  if needsEmptyOutlet r then Some EmptyOutletComponent else component r.
Proof.
  rewrite standardizeConfig_unfold.
  destruct r as [p pm m co rt o ca [cs|] lc i lr li]; unfold needsEmptyOutlet; simpl;
    match goal with |- context [if ?b then _ else _] => destruct b end;
    reflexivity.
Qed.

Lemma standardizeConfig_children (r : Route) :
  children (standardizeConfig r) = map standardizeConfig <$> children r.
Proof.
  rewrite standardizeConfig_unfold.
  destruct r as [p pm m co rt o ca [cs|] lc i lr li]; unfold needsEmptyOutlet; simpl;
    match goal with |- context [if ?b then _ else _] => destruct b end;
    reflexivity.
Qed.

(** Every other property is copied. *)
Lemma standardizeConfig_frame (r : Route) :
  path (standardizeConfig r) = path r /\
  pathMatch (standardizeConfig r) = pathMatch r /\
  matcher (standardizeConfig r) = matcher r /\
  redirectTo (standardizeConfig r) = redirectTo r /\
  outlet (standardizeConfig r) = outlet r /\
  canActivate (standardizeConfig r) = canActivate r /\
  loadChildren (standardizeConfig r) = loadChildren r /\
  _injector (standardizeConfig r) = _injector r /\
  _loadedRoutes (standardizeConfig r) = _loadedRoutes r /\
  _loadedInjector (standardizeConfig r) = _loadedInjector r.
Proof.
  rewrite standardizeConfig_unfold.
  destruct r as [p pm m co rt o ca [cs|] lc i lr li]; unfold needsEmptyOutlet; simpl;
    match goal with |- context [if ?b then _ else _] => destruct b end;
    repeat split; reflexivity.
Qed.

(** C3.  [standardizeConfig] is idempotent: normalising a normalised node
    gives back the same tree. *)
Theorem standardizeConfig_idempotent (r : Route) :
  standardizeConfig (standardizeConfig r) = standardizeConfig r.
Proof.
  induction r as [r IH] using Route_children_ind.
  rewrite (standardizeConfig_unfold r).
  destruct r as [p pm m co rt o ca [cs|] lc i lr li]; simpl in *.
  - specialize (IH cs eq_refl).
    assert (Hmap : map standardizeConfig (map standardizeConfig cs)
                   = map standardizeConfig cs).
    { clear -IH. induction IH as [|c cs' Hc _ IHcs]; simpl; [reflexivity|].
      rewrite Hc, IHcs. reflexivity. }
    unfold needsEmptyOutlet; simpl.
    destruct co as [x|]; simpl.
    + unfold withChildren; simpl. rewrite Hmap. reflexivity.
    + destruct (namedOutlet o) eqn:Ho; simpl.
      * unfold withChildren, withComponent; simpl. rewrite Hmap. reflexivity.
      * unfold withChildren, needsEmptyOutlet; simpl. rewrite Hmap, Ho.
        reflexivity.
  - unfold needsEmptyOutlet; simpl.
    destruct co as [x|]; simpl; [reflexivity|].
    destruct lc as [f|]; simpl; [|reflexivity].
    destruct (namedOutlet o) eqn:Ho; simpl; [reflexivity|].
    unfold needsEmptyOutlet; simpl. rewrite Ho. reflexivity.
Qed.

Lemma namedOutlet_Some (o : string) :
  o <> "" -> o <> PRIMARY_OUTLET -> namedOutlet (Some o) = true.
Proof.
  intros Hne Hprim. simpl. rewrite (truthyString_of_ne _ Hne). simpl.
  apply negb_true_iff, String.eqb_neq, Hprim.
Qed.

(** C4 (amended).  For a node without component that has children or a
    lazy-load descriptor: if its outlet is a non-empty name other than
    [PRIMARY_OUTLET], the normalised copy has the placeholder as its
    component; if its outlet is unset, empty or [PRIMARY_OUTLET], the
    copy's component stays unset. *)
Theorem standardizeConfig_placeholder (r : Route) :
  component r = None ->
  children r <> None \/ loadChildren r <> None ->
  (forall o, outlet r = Some o -> o <> "" -> o <> PRIMARY_OUTLET ->
     component (standardizeConfig r) = Some EmptyOutletComponent) /\
  (outlet r = None \/ outlet r = Some "" \/ outlet r = Some PRIMARY_OUTLET ->
     component (standardizeConfig r) = None).
Proof.
  intros Hc Hsub. split.
  - intros o Ho Hne Hprim.
    rewrite standardizeConfig_component. unfold needsEmptyOutlet.
    rewrite Hc, Ho, (namedOutlet_Some _ Hne Hprim).
    destruct Hsub as [H | H]; apply present_of_ne in H; rewrite H; simpl;
      [|rewrite orb_true_r]; reflexivity.
  - intros Ho.
    rewrite standardizeConfig_component. unfold needsEmptyOutlet.
    destruct Ho as [Ho | [Ho | Ho]]; rewrite Ho, Hc; simpl;
      rewrite andb_false_r; reflexivity.
Qed.

Lemma standardizeConfig_placeholder_witness :
  component (standardizeConfig (componentlessParent (Some "aux")))
    = Some EmptyOutletComponent /\
  component (standardizeConfig (componentlessParent None)) = None /\
  component (standardizeConfig (componentlessParent (Some "primary"))) = None.
Proof.
  split; [|split].
  - apply (standardizeConfig_placeholder (componentlessParent (Some "aux")))
      with (o := "aux"); try reflexivity; try discriminate.
    left. discriminate.
  - apply (standardizeConfig_placeholder (componentlessParent None));
      [reflexivity | left; discriminate | left; reflexivity].
  - apply (standardizeConfig_placeholder (componentlessParent (Some "primary")));
      [reflexivity | left; discriminate | right; right; reflexivity].
Defined.

(** C4, as stated, fails: an outlet explicitly set to the empty string is
    not [PRIMARY_OUTLET], yet no placeholder is inserted. *)
Lemma standardizeConfig_placeholder_counterexample :
  component (componentlessParent (Some "")) = None /\
  children (componentlessParent (Some "")) <> None /\
  outlet (componentlessParent (Some "")) = Some "" /\
  "" <> PRIMARY_OUTLET /\
  component (standardizeConfig (componentlessParent (Some "")))
    <> Some EmptyOutletComponent.
Proof. repeat split; (discriminate || reflexivity). Qed.

End Normalisation.

(** ** Outlets *)

Section Outlets.

Lemma getOutlet_unset (route : Route) :
  outlet route = None -> getOutlet route = PRIMARY_OUTLET.
Proof. unfold getOutlet. intros ->. reflexivity. Qed.

Lemma getOutlet_named (route : Route) (o : string) :
  outlet route = Some o -> o <> "" -> getOutlet route = o.
Proof.
  unfold getOutlet. intros -> Hne. rewrite (truthyString_of_ne _ Hne).
  reflexivity.
Qed.

Lemma sublist_filter_mono {A : Type} (P : A -> Prop)
    `{!forall x, Decision (P x)} (k l : list A) :
  sublist k l -> sublist (filter P k) (filter P l).
Proof.
  induction 1 as [|x k l _ IH|x k l _ IH]; [constructor| |].
  - rewrite !filter_cons. destruct (decide (P x)); [constructor|]; exact IH.
  - rewrite filter_cons. destruct (decide (P x)); [constructor|]; exact IH.
Qed.

Lemma sublist_full_length {A : Type} (k l : list A) :
  sublist k l -> length l <= length k -> k = l.
Proof.
  induction 1 as [|x k l _ IH|x k l Hsub _]; simpl; intros Hlen.
  - reflexivity.
  - f_equal. apply IH. lia.
  - apply sublist_length in Hsub. lia.
Qed.

Lemma filter_all {A : Type} (P : A -> Prop) `{!forall x, Decision (P x)}
    (l : list A) :
  Forall P l -> filter P l = l.
Proof.
  induction 1 as [|x xs Hx _ IH]; [reflexivity|].
  rewrite filter_cons_True, IH; auto.
Qed.

Lemma filter_none {A : Type} (P : A -> Prop) `{!forall x, Decision (P x)}
    (l : list A) :
  Forall (fun x => ~ P x) l -> filter P l = [].
Proof.
  induction 1 as [|x xs Hx _ IH]; [reflexivity|].
  rewrite filter_cons_False; auto.
Qed.

(** In-order selections of [l] that keep only elements satisfying [P] and
    are as long as [filter P l] are that filter. *)
Lemma selection_is_filter {A : Type} (P : A -> Prop)
    `{!forall x, Decision (P x)} (l ms : list A) :
  Forall P ms -> sublist ms l -> length (filter P l) <= length ms ->
  ms = filter P l.
Proof.
  intros Hms Hsub Hlen.
  apply sublist_full_length; [|exact Hlen].
  apply (sublist_filter_mono P) in Hsub.
  rewrite (filter_all P ms Hms) in Hsub. exact Hsub.
Qed.

(** A stable partition is determined by its specification: the only way
    to split [l] into an in-order selection of elements satisfying [P]
    followed by an in-order selection of the others, using each element
    once, is the pair of filters. *)
Lemma stable_partition_unique {A : Type} (P : A -> Prop)
    `{!forall x, Decision (P x)} (l ms os : list A) :
  Forall P ms -> Forall (fun x => ~ P x) os ->
  sublist ms l -> sublist os l ->
  l ≡ₚ (ms ++ os)%list ->
  ms = filter P l /\ os = filter (fun x => ~ P x) l.
Proof.
  intros Hms Hos Hsm Hso Hperm.
  assert (Hnn : Forall (fun x => ~ ~ P x) ms).
  { eapply Forall_impl; [exact Hms|]. intros x Hx Hn. exact (Hn Hx). }
  split.
  - apply selection_is_filter; [assumption..|].
    rewrite (Permutation_length (filter_Permutation P _ _ Hperm)).
    rewrite filter_app, (filter_all P ms Hms), (filter_none P os Hos), app_nil_r.
    reflexivity.
  - apply selection_is_filter; [assumption..|].
    rewrite (Permutation_length
               (filter_Permutation (fun x => ~ P x) _ _ Hperm)).
    rewrite filter_app, (filter_none _ ms Hnn), (filter_all _ os Hos).
    reflexivity.
Qed.

Lemma sortByMatchingOutlets_partition (routes : Routes) (outletName : string) :
  routes ≡ₚ sortByMatchingOutlets routes outletName /\
  sublist (filter (fun r => getOutlet r = outletName) routes) routes /\
  sublist (filter (fun r => getOutlet r <> outletName) routes) routes.
Proof.
  split; [|split; apply sublist_filter].
  symmetry. apply (filter_app_complement (fun r => getOutlet r = outletName)).
Qed.

(** What [getOutlet] returns, read off the [outlet] property: the outlet
    when it is set and not empty, "primary" otherwise. *)
Lemma getOutlet_resolvesTo (route : Route) (name : string) :
  getOutlet route = name <-> resolvesTo route name.
Proof.
  unfold getOutlet, resolvesTo.
  destruct (outlet route) as [[|c o]|]; simpl; split.
  - intros <-. right. split; [reflexivity | right; reflexivity].
  - intros [[Ho Hne] | [-> _]]; [|reflexivity].
    injection Ho as <-. contradiction.
  - intros <-. left. split; [reflexivity | discriminate].
  - intros [[Ho _] | [_ [Ho | Ho]]]; [|discriminate..].
    injection Ho as <-. reflexivity.
  - intros <-. right. split; [reflexivity | left; reflexivity].
  - intros [[Ho _] | [-> _]]; [discriminate | reflexivity].
Qed.

Lemma Forall_resolvesTo (routes : Routes) (name : string) :
  Forall (fun r => getOutlet r = name) routes <->
  Forall (fun r => resolvesTo r name) routes.
Proof.
  split; intros H; (eapply Forall_impl; [exact H|]); intros r Hr;
    apply getOutlet_resolvesTo, Hr.
Qed.

Lemma Forall_not_resolvesTo (routes : Routes) (name : string) :
  Forall (fun r => getOutlet r <> name) routes <->
  Forall (fun r => ~ resolvesTo r name) routes.
Proof.
  split; intros H; (eapply Forall_impl; [exact H|]); intros r Hr Hn;
    apply Hr, getOutlet_resolvesTo, Hn.
Qed.

(** C2 (amended).  [sortByMatchingOutlets] is a stable partition by
    resolved outlet, where the resolved outlet of a node is its outlet,
    defaulting to "primary" when unset or empty: the result consists of
    the routes whose resolved outlet is [outletName], in their original
    relative order, followed by all the others, in their original
    relative order; it contains exactly the elements of the input; and
    it is the only sequence with these properties. *)
Theorem sortByMatchingOutlets_stable_partition
    (routes : Routes) (outletName : string) :
  exists matching others : Routes,
    sortByMatchingOutlets routes outletName = (matching ++ others)%list /\
    Forall (fun r => resolvesTo r outletName) matching /\
    Forall (fun r => ~ resolvesTo r outletName) others /\
    sublist matching routes /\
    sublist others routes /\
    routes ≡ₚ sortByMatchingOutlets routes outletName /\
    (forall ms os : Routes,
        Forall (fun r => resolvesTo r outletName) ms ->
        Forall (fun r => ~ resolvesTo r outletName) os ->
        sublist ms routes -> sublist os routes ->
        routes ≡ₚ (ms ++ os)%list ->
        (ms ++ os)%list = sortByMatchingOutlets routes outletName).
Proof.
  exists (filter (fun r => getOutlet r = outletName) routes),
         (filter (fun r => getOutlet r <> outletName) routes).
  unfold sortByMatchingOutlets.
  repeat split.
  - apply Forall_resolvesTo, Forall_forall.
    intros r Hr. apply list_elem_of_filter in Hr. tauto.
  - apply Forall_not_resolvesTo, Forall_forall.
    intros r Hr. apply list_elem_of_filter in Hr. tauto.
  - apply sublist_filter.
  - apply sublist_filter.
  - symmetry. apply (filter_app_complement (fun r => getOutlet r = outletName)).
  - intros ms os Hms Hos Hsm Hso Hperm.
    apply Forall_resolvesTo in Hms. apply Forall_not_resolvesTo in Hos.
    destruct (stable_partition_unique (fun r => getOutlet r = outletName)
                routes ms os Hms Hos Hsm Hso Hperm) as [-> ->].
    reflexivity.
Qed.

(** C2, as stated, fails: with the resolved outlet read as "the outlet,
    defaulting to primary when unset", neither [{outlet:'aux'}] nor
    [{outlet:''}] has the outlet "primary", so sorting the two by
    "primary" would leave them in place; the code moves the node with
    the empty outlet to the front. *)
Lemma sortByMatchingOutlets_counterexample :
  Forall (fun r => outletOrPrimaryWhenUnset r <> "primary")
         [auxLeafRoute; emptyOutletLeafRoute] /\
  sortByMatchingOutlets [auxLeafRoute; emptyOutletLeafRoute] "primary"
  = [emptyOutletLeafRoute; auxLeafRoute] /\
  ~ (exists matching others : Routes,
        sortByMatchingOutlets [auxLeafRoute; emptyOutletLeafRoute] "primary"
        = (matching ++ others)%list /\
        Forall (fun r => outletOrPrimaryWhenUnset r = "primary") matching /\
        Forall (fun r => outletOrPrimaryWhenUnset r <> "primary") others /\
        sublist others [auxLeafRoute; emptyOutletLeafRoute]).
Proof.
  split; [repeat constructor; discriminate|].
  split; [reflexivity|].
  intros (matching & others & Heq & Hm & _ & Hsub).
  change (sortByMatchingOutlets [auxLeafRoute; emptyOutletLeafRoute] "primary")
    with [emptyOutletLeafRoute; auxLeafRoute] in Heq.
  destruct matching as [|m matching].
  - simpl in Heq. subst others.
    unfold auxLeafRoute, emptyOutletLeafRoute in Hsub.
    inversion Hsub as [| |x l1 l2 Hsub']; subst.
    inversion Hsub' as [|x l1 l2 Hsub''|x l1 l2 Hsub'']; subst;
      inversion Hsub''.
  - injection Heq as <- _. inversion Hm as [|? ? Hhead _]; subst.
    discriminate Hhead.
Qed.

(** The example of the specification:
    [sortByMatchingOutlets([{outlet:'aux'}, {}, {outlet:'aux'}], 'aux')]. *)
Example sortByMatchingOutlets_example :
  sortByMatchingOutlets
    [componentlessParent (Some "aux"); blankRoute; auxOnlyRoute] "aux"
  = [componentlessParent (Some "aux"); auxOnlyRoute; blankRoute].
Proof. reflexivity. Qed.

End Outlets.

(** ** Closest injector *)

Section Injectors.

(** The walk passes over snapshots that carry no injector. *)
Lemma walkParents_skip (skipped : list ActivatedRouteSnapshot) :
  forall (p a : ActivatedRouteSnapshot) (rest : list ActivatedRouteSnapshot),
    p :: ancestors p = (skipped ++ a :: rest)%list ->
    Forall noInjector skipped ->
    walkParents p = walkParents a.
Proof.
  induction skipped as [|s skipped IH]; intros p a rest Hchain Hnone.
  - simpl in Hchain. congruence.
  - simpl in Hchain. injection Hchain as <- Hanc.
    inversion Hnone as [|? ? [Hl Hi] Hnone']; subst.
    destruct p as [route [up|]]; simpl in *.
    + rewrite Hl, Hi. apply (IH up a rest); assumption.
    + destruct skipped; discriminate.
Qed.

(** The loop returns the first injector of the snapshot it reaches:
    lazy-loaded before static. *)
Lemma walkParents_here (a : ActivatedRouteSnapshot) (ra : Route) :
  routeConfig a = Some ra ->
  (forall li, _loadedInjector ra = Some li -> walkParents a = Some li) /\
  (forall si, _loadedInjector ra = None -> _injector ra = Some si ->
              walkParents a = Some si).
Proof.
  destruct a as [route up]; simpl. intros ->. simpl. split.
  - intros li ->. reflexivity.
  - intros si -> ->. reflexivity.
Qed.

(** Nothing is found when no snapshot of the chain carries an injector. *)
Lemma walkParents_none (p : ActivatedRouteSnapshot) :
  Forall noInjector (p :: ancestors p) -> walkParents p = None.
Proof.
  remember (p :: ancestors p) as chain eqn:Hchain.
  intros Hall. revert p Hchain.
  induction Hall as [|s chain [Hl Hi] _ IH]; intros p Hchain; [discriminate|].
  injection Hchain as -> ->.
  destruct p as [route [q|]]; simpl in *; rewrite Hl, Hi.
  - apply IH. reflexivity.
  - reflexivity.
Qed.

(** C1.  A snapshot whose own node carries a static-providers injector
    resolves to that injector, whatever lazy-loaded injector the same node
    carries.  Otherwise the walk goes up: the nearest ancestor whose node
    carries an injector decides, and there the lazy-loaded injector wins
    over the static one. *)
Theorem getClosestRouteInjector_nearest (s : ActivatedRouteSnapshot) :
  (forall r own,
      routeConfig s = Some r -> _injector r = Some own ->
      getClosestRouteInjector (Some s) = Some own) /\
  (forall skipped a rest ra,
      routeConfig s ≫= _injector = None ->
      ancestors s = (skipped ++ a :: rest)%list ->
      Forall noInjector skipped ->
      routeConfig a = Some ra ->
      (forall lazy, _loadedInjector ra = Some lazy ->
                    getClosestRouteInjector (Some s) = Some lazy) /\
      (forall static, _loadedInjector ra = None -> _injector ra = Some static ->
                      getClosestRouteInjector (Some s) = Some static)).
Proof.
  split.
  - intros r own Hr Hown. unfold getClosestRouteInjector.
    rewrite Hr. simpl. rewrite Hown. reflexivity.
  - intros skipped a rest ra Hown Hchain Hnone Hra.
    unfold getClosestRouteInjector. rewrite Hown.
    destruct s as [route [p|]]; simpl in *.
    + rewrite (walkParents_skip skipped p a rest Hchain Hnone).
      apply walkParents_here, Hra.
    + destruct skipped; discriminate.
Qed.

Lemma getClosestRouteInjector_nearest_witness :
  getClosestRouteInjector (Some lazySnapshot) = Some (Injector 1) /\
  getClosestRouteInjector (Some grandChildSnapshot) = Some (Injector 2).
Proof.
  split.
  - apply (proj1 (getClosestRouteInjector_nearest lazySnapshot)
             bothInjectorsRoute (Injector 1)); reflexivity.
  - refine (proj1 (proj2 (getClosestRouteInjector_nearest grandChildSnapshot)
                      [childSnapshot] lazySnapshot [rootSnapshot]
                      bothInjectorsRoute eq_refl eq_refl _ eq_refl)
                  (Injector 2) eq_refl).
    repeat constructor.
Defined.

(** The examples of the specification: a node with both injectors
    resolves to its static one; its child and grandchild resolve to its
    lazy-loaded one. *)
Example getClosestRouteInjector_examples :
  getClosestRouteInjector (Some lazySnapshot) = Some (Injector 1) /\
  getClosestRouteInjector (Some childSnapshot) = Some (Injector 2) /\
  getClosestRouteInjector (Some grandChildSnapshot) = Some (Injector 2) /\
  getClosestRouteInjector (Some rootSnapshot) = None.
Proof. repeat split. Qed.

End Injectors.

(** ** The store-level normaliser *)

Section StoreRefinement.

Lemma Forall2_impl_Forall {A B : Type} (R R' : A -> B -> Prop)
    (xs : list A) (ys : list B) :
  Forall (fun y => forall x, R x y -> R' x y) ys ->
  Forall2 R xs ys -> Forall2 R' xs ys.
Proof.
  intros Hall H2. induction H2 as [|x y xs ys Hxy _ IH]; [constructor|].
  inversion Hall; subst. constructor; auto.
Qed.

(** Allocation never disturbs a represented tree. *)
Lemma repr_extend (ext : Store.heap) (t : Route) :
  forall (h : Store.heap) (l : Store.loc),
    Store.repr h l t -> Store.repr (h ++ ext)%list l t.
Proof.
  induction t as [t IHch IHlr] using Route_subtrees_ind.
  intros h l Hrepr.
  inversion Hrepr as [l' o t' Hl Hp Hpm Hm Hc Hrt Ho Hca Hch Hlc Hi Hlr Hli];
    subst.
  apply Store.repr_node with (o := o); try assumption.
  - apply lookup_app_l_Some, Hl.
  - destruct Hch as [ls cs Hch|]; constructor.
    eapply Forall2_impl_Forall; [|exact Hch].
    eapply Forall_impl; [apply IHch; reflexivity|].
    intros c Hc' x; apply Hc'.
  - destruct Hlr as [ls cs Hlr|]; constructor.
    eapply Forall2_impl_Forall; [|exact Hlr].
    eapply Forall_impl; [apply IHlr; reflexivity|].
    intros c Hc' x; apply Hc'.
Qed.

(** The tail of [standardizeConfig]: allocate the copy, then patch its
    component if needed.  Only the new object is written. *)
Lemma alloc_then_patch (children : option (list Store.loc))
    (o0 : Store.RouteObj) (h : Store.heap) :
  Store.bind (Store.alloc o0) (fun c =>
    Store.bind (Store.load c) (fun oc =>
      if Store.needsEmptyOutlet children oc
      then Store.bind (Store.store c (Store.withComponent oc EmptyOutletComponent))
                      (fun _ => Store.ret c)
      else Store.ret c)) h
  = Some (length h,
          (h ++ [if Store.needsEmptyOutlet children o0
                 then Store.withComponent o0 EmptyOutletComponent
                 else o0])%list).
Proof.
  unfold Store.bind, Store.alloc, Store.load, Store.store, Store.ret.
  rewrite (list_lookup_middle h [] o0 (length h) eq_refl).
  destruct (Store.needsEmptyOutlet children o0); [|reflexivity].
  rewrite (list_lookup_middle h [] o0 (length h) eq_refl).
  replace (length h) with (length h + 0) at 2 by lia.
  rewrite insert_app_r. reflexivity.
Qed.

(** [map] over represented children: every callback run succeeds, the
    store grows, and the new array represents the mapped list. *)
Lemma mapM_normalises (fuel : nat) (ts : list Route) :
  forall (ls : list Store.loc) (h : Store.heap),
    Forall2 (Store.repr h) ls ts ->
    Forall (fun t => forall h l, Store.repr h l t -> normalises fuel h l t) ts ->
    exists (cs : list Store.loc) (ext : Store.heap),
      Store.mapM (Store.standardizeConfig fuel) ls h = Some (cs, (h ++ ext)%list) /\
      Forall2 (Store.repr (h ++ ext)%list) cs (map standardizeConfig ts).
Proof.
  induction ts as [|t ts IH]; intros ls h Hrepr Hall.
  - inversion Hrepr; subst. exists [], []. simpl.
    unfold Store.ret. rewrite app_nil_r. split; [reflexivity | constructor].
  - inversion Hrepr as [|l t' ls' ts' Hl Hls]; subst.
    inversion Hall as [|? ? Ht Hts]; subst.
    destruct (Ht h l Hl) as (c & ext1 & o & oc & Hrun & _ & _ & _ & _ & Hc).
    destruct (IH ls' (h ++ ext1)%list) as (cs & ext2 & Hrest & Hcs).
    { eapply Forall2_impl; [exact Hls|]. intros x y. apply repr_extend. }
    { exact Hts. }
    exists (c :: cs), (ext1 ++ ext2)%list.
    simpl. unfold Store.bind at 1. rewrite Hrun.
    unfold Store.bind at 1. rewrite Hrest. unfold Store.ret.
    rewrite app_assoc. split; [reflexivity|].
    constructor; [apply repr_extend, Hc | exact Hcs].
Qed.

(** The patched copy of an object that mirrors [t] mirrors
    [standardizeConfig t], once its children do. *)
Lemma repr_patched (h : Store.heap) (c : Store.loc) (o0 : Store.RouteObj)
    (t : Route) :
  h !! c = Some (if Store.needsEmptyOutlet (Store.obj_children o0) o0
                 then Store.withComponent o0 EmptyOutletComponent
                 else o0) ->
  Store.obj_path o0 = path t ->
  Store.obj_pathMatch o0 = pathMatch t ->
  Store.obj_matcher o0 = matcher t ->
  Store.obj_component o0 = component t ->
  Store.obj_redirectTo o0 = redirectTo t ->
  Store.obj_outlet o0 = outlet t ->
  Store.obj_canActivate o0 = canActivate t ->
  option_Forall2 (Forall2 (Store.repr h)) (Store.obj_children o0)
                 (map standardizeConfig <$> children t) ->
  Store.obj_loadChildren o0 = loadChildren t ->
  Store.obj_injector o0 = _injector t ->
  option_Forall2 (Forall2 (Store.repr h)) (Store.obj_loadedRoutes o0)
                 (_loadedRoutes t) ->
  Store.obj_loadedInjector o0 = _loadedInjector t ->
  Store.repr h c (standardizeConfig t).
Proof.
  intros Hl Hp Hpm Hm Hc Hrt Ho Hca Hch Hlc Hi Hlr Hli.
  assert (Hneeds : Store.needsEmptyOutlet (Store.obj_children o0) o0
                   = needsEmptyOutlet t).
  { unfold Store.needsEmptyOutlet, needsEmptyOutlet.
    rewrite Hc, Hlc, Ho. f_equal. f_equal. f_equal.
    clear -Hch.
    destruct (Store.obj_children o0), (children t); simpl in Hch;
      inversion Hch; reflexivity. }
  rewrite Hneeds in Hl.
  destruct (standardizeConfig_frame t)
    as (Fp & Fpm & Fm & Frt & Fo & Fca & Flc & Fi & Flr & Fli).
  eapply Store.repr_node; [exact Hl|..];
    rewrite ?Fp, ?Fpm, ?Fm, ?Frt, ?Fo, ?Fca, ?Flc, ?Fi, ?Flr, ?Fli,
      ?standardizeConfig_component, ?standardizeConfig_children;
    destruct (needsEmptyOutlet t); simpl; assumption || reflexivity.
Qed.

Lemma depth_pos (t : Route) : 0 < depth t.
Proof. destruct t as [p pm m co rt o ca [cs|] lc i lr li]; simpl; lia. Qed.

Lemma sameButComponentAndChildren_patched (kids : option (list Store.loc))
    (o0 o : Store.RouteObj) :
  Store.sameButComponentAndChildren o0 o ->
  Store.sameButComponentAndChildren
    (if Store.needsEmptyOutlet kids o0
     then Store.withComponent o0 EmptyOutletComponent else o0) o.
Proof. destruct (Store.needsEmptyOutlet kids o0); [|tauto]. intros H; exact H. Qed.

(** The store-level [standardizeConfig] implements the value-level one:
    on a reference to a tree, with a budget above the tree's depth, it
    returns a newly allocated object that represents the normalised
    tree, and it only extends the store. *)
Lemma standardizeConfig_refines (t : Route) :
  forall (fuel : nat), depth t < fuel ->
  forall (h : Store.heap) (r : Store.loc),
    Store.repr h r t -> normalises fuel h r t.
Proof.
  induction t as [t IH] using Route_children_ind.
  intros fuel Hfuel h r Hrepr.
  destruct fuel as [|fuel']; [lia|].
  inversion Hrepr as [l o t' Hl Hp Hpm Hm Hc Hrt Ho Hca Hch Hlc Hi Hlr Hli];
    subst.
  unfold normalises. cbn [Store.standardizeConfig].
  unfold Store.bind at 1, Store.load at 1. rewrite Hl.
  destruct (Store.obj_children o) as [ls|] eqn:Eo,
           (children t) as [cs|] eqn:Et; inversion Hch as [? ? Hkids|]; subst.
  - destruct (mapM_normalises fuel' cs ls h Hkids) as (cs' & ext1 & Hmap & Hcs').
    { specialize (IH cs eq_refl).
      rewrite Forall_forall in IH |- *. intros c Hin h0 l0.
      apply IH; [exact Hin|].
      apply list_elem_of_In in Hin.
      pose proof (depth_child t c cs Et Hin). lia. }
    unfold Store.bind at 1. unfold Store.bind at 1. rewrite Hmap.
    unfold Store.ret at 1.
    rewrite alloc_then_patch.
    set (o0 := Store.withChildren o cs').
    set (oc := if Store.needsEmptyOutlet (Some cs') o0
               then Store.withComponent o0 EmptyOutletComponent else o0).
    exists (length (h ++ ext1)%list), (ext1 ++ [oc])%list, o, oc.
    rewrite app_assoc.
    split; [reflexivity|]. split; [rewrite length_app; lia|].
    split; [reflexivity|]. split; [apply list_lookup_middle; reflexivity|].
    split.
    + apply sameButComponentAndChildren_patched. subst o0.
      unfold Store.sameButComponentAndChildren. simpl. tauto.
    + apply (repr_patched _ _ o0); subst oc o0; simpl; try assumption.
      * apply list_lookup_middle. reflexivity.
      * rewrite Et. simpl. constructor.
        eapply Forall2_impl; [exact Hcs'|]. intros x y. apply repr_extend.
      * destruct Hlr as [a b Hlr|]; constructor.
        eapply Forall2_impl; [exact Hlr|]. intros x y Hxy.
        rewrite <- app_assoc. apply repr_extend, Hxy.
  - unfold Store.bind at 1. unfold Store.ret at 1.
    rewrite alloc_then_patch.
    set (oc := if Store.needsEmptyOutlet None o
               then Store.withComponent o EmptyOutletComponent else o).
    exists (length h), [oc], o, oc.
    split; [reflexivity|]. split; [lia|].
    split; [reflexivity|]. split; [apply list_lookup_middle; reflexivity|].
    split.
    + apply sameButComponentAndChildren_patched.
      unfold Store.sameButComponentAndChildren. tauto.
    + apply (repr_patched _ _ o); subst oc; try assumption.
      * rewrite Eo. apply list_lookup_middle. reflexivity.
      * rewrite Eo, Et. constructor.
      * destruct Hlr as [a b Hlr|]; constructor.
        eapply Forall2_impl; [exact Hlr|]. intros x y. apply repr_extend.
Qed.

(** A [map] whose callback only allocates only allocates. *)
Lemma mapM_only_allocates {A B : Type} (f : A -> Store.M B) :
  (forall x h y h', f x h = Some (y, h') -> exists ext, h' = (h ++ ext)%list) ->
  forall xs h ys h',
    Store.mapM f xs h = Some (ys, h') -> exists ext, h' = (h ++ ext)%list.
Proof.
  intros Hf. induction xs as [|x xs IH]; intros h ys h' Hrun; simpl in Hrun.
  - injection Hrun as _ <-. exists []. rewrite app_nil_r. reflexivity.
  - unfold Store.bind at 1 in Hrun.
    destruct (f x h) as [[y h1]|] eqn:Hx; [|discriminate].
    unfold Store.bind at 1 in Hrun.
    destruct (Store.mapM f xs h1) as [[ys' h2]|] eqn:Hxs; [|discriminate].
    injection Hrun as _ <-.
    destruct (Hf _ _ _ _ Hx) as [ext1 ->].
    destruct (IH _ _ _ Hxs) as [ext2 ->].
    exists (ext1 ++ ext2)%list. rewrite app_assoc. reflexivity.
Qed.

(** Whatever the store and the budget: when the store-level
    [standardizeConfig] returns, it has only allocated, the reference it
    returns is new, and the new object is a copy of the argument up to
    [component] and [children]. *)
Lemma standardizeConfig_only_allocates (fuel : nat) :
  forall (r : Store.loc) (h : Store.heap) (c : Store.loc) (h' : Store.heap),
    Store.standardizeConfig fuel r h = Some (c, h') ->
    exists (ext : Store.heap) (o oc : Store.RouteObj),
      h' = (h ++ ext)%list /\
      length h <= c /\
      h !! r = Some o /\
      h' !! c = Some oc /\
      Store.sameButComponentAndChildren oc o.
Proof.
  induction fuel as [|fuel IH]; intros r h c h' Hrun; [discriminate|].
  cbn [Store.standardizeConfig] in Hrun.
  unfold Store.bind at 1, Store.load at 1 in Hrun.
  destruct (h !! r) as [o|] eqn:Hr; [|discriminate].
  unfold Store.bind at 1 in Hrun.
  destruct (Store.obj_children o) as [cs|] eqn:Eo.
  - unfold Store.bind at 1 in Hrun.
    destruct (Store.mapM (Store.standardizeConfig fuel) cs h)
      as [[cs' h1]|] eqn:Hmap; [|discriminate].
    unfold Store.ret at 1 in Hrun.
    rewrite alloc_then_patch in Hrun. injection Hrun as <- <-.
    destruct (mapM_only_allocates (Store.standardizeConfig fuel)) with
      (xs := cs) (h := h) (ys := cs') (h' := h1) as [ext1 ->];
      [|exact Hmap|].
    { intros x h0 y h0' Hx.
      destruct (IH _ _ _ _ Hx) as (ext & _ & _ & -> & _). exists ext. reflexivity. }
    eexists (ext1 ++ [_])%list, o, _. rewrite app_assoc.
    split; [reflexivity|]. split; [rewrite length_app; lia|].
    split; [reflexivity|]. split; [apply list_lookup_middle; reflexivity|].
    apply sameButComponentAndChildren_patched.
    unfold Store.sameButComponentAndChildren. simpl. tauto.
  - unfold Store.ret at 1 in Hrun.
    rewrite alloc_then_patch in Hrun. injection Hrun as <- <-.
    eexists [_], o, _.
    split; [reflexivity|]. split; [lia|].
    split; [reflexivity|]. split; [apply list_lookup_middle; reflexivity|].
    apply sameButComponentAndChildren_patched.
    unfold Store.sameButComponentAndChildren. tauto.
Qed.

Lemma sampleStore_repr :
  Store.repr sampleStore 1 (componentlessParent (Some "aux")).
Proof.
  eapply Store.repr_node; try reflexivity; simpl; constructor.
  constructor; [|constructor].
  eapply Store.repr_node; try reflexivity; simpl; constructor.
Qed.

(** C10.  [standardizeConfig] returns a fresh record and mutates nothing.
    Whenever a call on the reference [r] returns a reference [c]: the
    store after the call is the store before it followed by newly
    allocated objects, so the object behind [r] (and every other existing
    object) is what it was; [c] did not exist before the call; and the
    object behind [c] agrees with the object behind [r] on every property
    other than [component] and [children].  And the call does return when
    [r] refers to a route tree and the budget exceeds the tree's depth. *)
Theorem standardizeConfig_fresh_copy :
  (forall (fuel : nat) (r : Store.loc) (h : Store.heap)
          (c : Store.loc) (h' : Store.heap),
      Store.standardizeConfig fuel r h = Some (c, h') ->
      exists (o oc : Store.RouteObj),
        (forall l o', h !! l = Some o' -> h' !! l = Some o') /\
        h !! c = None /\
        h !! r = Some o /\
        h' !! r = Some o /\
        h' !! c = Some oc /\
        Store.sameButComponentAndChildren oc o) /\
  (forall (h : Store.heap) (r : Store.loc) (t : Route) (fuel : nat),
      Store.repr h r t ->
      depth t < fuel ->
      exists (c : Store.loc) (h' : Store.heap),
        Store.standardizeConfig fuel r h = Some (c, h')).
Proof.
  split.
  - intros fuel r h c h' Hrun.
    destruct (standardizeConfig_only_allocates fuel r h c h' Hrun)
      as (ext & o & oc & -> & Hfresh & Hr & Hc & Hsame).
    exists o, oc.
    split; [intros l o' Hl; apply lookup_app_l_Some; exact Hl|].
    split; [apply lookup_ge_None; exact Hfresh|].
    split; [exact Hr|].
    split; [apply lookup_app_l_Some; exact Hr|].
    split; [exact Hc | exact Hsame].
  - intros h r t fuel Hrepr Hfuel.
    destruct (standardizeConfig_refines t fuel Hfuel h r Hrepr)
      as (c & ext & _ & _ & Hrun & _).
    exists c, (h ++ ext)%list. exact Hrun.
Qed.

Lemma standardizeConfig_fresh_copy_witness :
  exists (c : Store.loc) (h' : Store.heap) (o oc : Store.RouteObj),
    Store.standardizeConfig 3 1 sampleStore = Some (c, h') /\
    (forall l o', sampleStore !! l = Some o' -> h' !! l = Some o') /\
    sampleStore !! c = None /\
    sampleStore !! 1 = Some o /\
    h' !! 1 = Some o /\
    h' !! c = Some oc /\
    Store.sameButComponentAndChildren oc o.
Proof.
  destruct standardizeConfig_fresh_copy as [Hcopy Hreturns].
  destruct (Hreturns sampleStore 1 (componentlessParent (Some "aux")) 3)
    as (c & h' & Hrun).
  - exact sampleStore_repr.
  - simpl. lia.
  - destruct (Hcopy 3 1 sampleStore c h' Hrun) as (o & oc & H).
    exists c, h', o, oc. split; [exact Hrun | exact H].
Defined.

(** On the sample store the call allocates the copy of the child, then
    the copy of the parent with the placeholder component. *)
Example standardizeConfig_sampleStore :
  Store.standardizeConfig 3 1 sampleStore
  = Some (3, [leafObj; auxParentObj; leafObj;
              Store.mkObj (Some "a") None None (Some EmptyOutletComponent) None
                          (Some "aux") None (Some [2]) None None None None]).
Proof. reflexivity. Qed.

End StoreRefinement.

(** ** Totality *)

Section Totality.

(** C9.  None of the four functions fails on well-typed input.
    [standardizeConfig], run on a reference to a route tree with a
    recursion budget above the tree's depth, returns (a reference to the
    normalised tree); [getOutlet] returns [PRIMARY_OUTLET] for an unset
    outlet; [sortByMatchingOutlets] returns a sequence as long as its
    input; [getClosestRouteInjector] returns "no injector found" for an
    absent snapshot and for a snapshot whose chain carries no injector. *)
Theorem helpers_total :
  (forall (h : Store.heap) (r : Store.loc) (t : Route),
      Store.repr h r t ->
      exists (c : Store.loc) (h' : Store.heap),
        Store.standardizeConfig (S (depth t)) r h = Some (c, h') /\
        Store.repr h' c (standardizeConfig t)) /\
  (forall route, outlet route = None -> getOutlet route = PRIMARY_OUTLET) /\
  (forall routes outletName,
      length (sortByMatchingOutlets routes outletName) = length routes) /\
  getClosestRouteInjector None = None /\
  (forall s,
      routeConfig s ≫= _injector = None ->
      Forall noInjector (ancestors s) ->
      getClosestRouteInjector (Some s) = None).
Proof.
  split; [|split; [|split; [|split]]].
  - intros h r t Hrepr.
    destruct (standardizeConfig_refines t (S (depth t)) (Nat.lt_succ_diag_r _)
                                        h r Hrepr)
      as (c & ext & o & oc & Hrun & _ & _ & _ & _ & Hc).
    exists c, (h ++ ext)%list. split; assumption.
  - apply getOutlet_unset.
  - intros routes outletName.
    destruct (sortByMatchingOutlets_partition routes outletName) as [Hperm _].
    symmetry. apply Permutation_length, Hperm.
  - reflexivity.
  - intros s Hown Hnone. unfold getClosestRouteInjector. rewrite Hown.
    destruct s as [route [p|]]; simpl in *; [|reflexivity].
    apply walkParents_none. exact Hnone.
Qed.

Lemma helpers_total_witness :
  (exists (c : Store.loc) (h' : Store.heap),
      Store.standardizeConfig 3 1 sampleStore = Some (c, h') /\
      Store.repr h' c (standardizeConfig (componentlessParent (Some "aux")))) /\
  getOutlet blankRoute = PRIMARY_OUTLET /\
  getClosestRouteInjector (Some (mkSnapshot (Some leafRoute) (Some rootSnapshot)))
    = None.
Proof.
  destruct helpers_total as (Hstd & Hout & _ & _ & Hnone).
  split; [|split].
  - apply (Hstd sampleStore 1 (componentlessParent (Some "aux"))).
    exact sampleStore_repr.
  - apply (Hout blankRoute). reflexivity.
  - apply (Hnone (mkSnapshot (Some leafRoute) (Some rootSnapshot))).
    + reflexivity.
    + repeat constructor.
Defined.

End Totality.

(** * Further properties of the validator *)

Section ValidationOrder.

Lemma children_size (r : Route) (cs : list Route) :
  children r = Some cs -> list_sum (map size cs) < size r.
Proof.
  destruct r as [p pm m co rt o ca ch lc i lr li]; simpl. intros ->. lia.
Qed.

(** Induction on a configuration: on the children of the first route and
    on the routes after it. *)
Lemma Routes_tree_ind (P : Routes -> Prop) :
  P [] ->
  (forall r rest,
      (forall cs, children r = Some cs -> P cs) -> P rest -> P (r :: rest)) ->
  forall config, P config.
Proof.
  intros Hnil Hcons config.
  remember (S (list_sum (map size config))) as n eqn:Hn.
  assert (Hlt : list_sum (map size config) < n) by lia. clear Hn.
  revert config Hlt. induction n as [|n IH]; intros config Hlt; [lia|].
  destruct config as [|r rest]; [exact Hnil|].
  simpl in Hlt. apply Hcons.
  - intros cs Hcs. apply IH. pose proof (children_size r cs Hcs). lia.
  - apply IH. destruct r; simpl in *; lia.
Qed.

Lemma nodesOf_unfold (r : Route) (fullPath : string) :
  nodesOf r fullPath =
  (r, fullPath) :: match children r with
                   | Some cs => preorder cs fullPath
                   | None => []
                   end.
Proof.
  destruct r as [p pm m co rt o ca [cs|] lc i lr li]; simpl; [|reflexivity].
  f_equal. induction cs as [|c rest IH]; simpl; [reflexivity|].
  rewrite IH. reflexivity.
Qed.

Lemma andThen_assoc (a b c : Outcome) : ((a ;; b) ;; c) = (a ;; b ;; c).
Proof. destruct a; reflexivity. Qed.

Lemma checkAll_app (xs ys : list (Route * string)) :
  checkAll (xs ++ ys)%list = (checkAll xs ;; checkAll ys).
Proof.
  induction xs as [|x xs IH]; simpl; [reflexivity|].
  rewrite IH, andThen_assoc. reflexivity.
Qed.

(** With the checks enabled, [validateConfig] runs the node checks on
    the nodes in visiting order. *)
Lemma validateConfigFrom_checkAll (g : NgDevMode) :
  devModeEnabled g = true ->
  forall (config : Routes) (parentPath : string),
    validateConfigFrom g config parentPath = checkAll (preorder config parentPath).
Proof.
  intros Hdev config.
  induction config as [|r rest IHcs IHrest] using Routes_tree_ind;
    intros parentPath; simpl; [reflexivity|].
  rewrite validateNode_unfold, Hdev, checkAll_app, nodesOf_unfold, IHrest.
  f_equal. simpl. f_equal.
  destruct (children r) as [cs|] eqn:Hcs; [|reflexivity].
  apply (IHcs cs eq_refl).
Qed.

Lemma checkAll_Returns (nodes : list (Route * string)) :
  checkAll nodes = Returns <->
  Forall (fun n => validateShape (fst n) (snd n) = Returns) nodes.
Proof.
  induction nodes as [|n nodes IH]; simpl.
  - split; [constructor | reflexivity].
  - split.
    + intros H. destruct (validateShape (fst n) (snd n)) eqn:Hn; [|discriminate].
      constructor; [exact Hn | apply IH, H].
    + intros H. inversion H as [|? ? Hn Hrest]; subst.
      rewrite Hn. simpl. apply IH, Hrest.
Qed.

Lemma checkAll_Throws (nodes : list (Route * string)) (e : ConfigError) :
  checkAll nodes = Throws e <->
  exists before n after,
    nodes = (before ++ n :: after)%list /\
    Forall (fun n => validateShape (fst n) (snd n) = Returns) before /\
    validateShape (fst n) (snd n) = Throws e.
Proof.
  induction nodes as [|n nodes IH]; simpl.
  - split; [discriminate|].
    intros (before & n & after & Heq & _). destruct before; discriminate.
  - split.
    + intros H. destruct (validateShape (fst n) (snd n)) as [|e'] eqn:Hn; simpl in H.
      * apply IH in H. destruct H as (before & n' & after & -> & Hb & Hn').
        exists (n :: before), n', after.
        split; [reflexivity|]. split; [constructor; assumption | assumption].
      * injection H as ->. exists [], n, nodes.
        split; [reflexivity|]. split; [constructor | assumption].
    + intros (before & n' & after & Heq & Hb & Hn').
      destruct before as [|b before]; simpl in Heq; injection Heq as -> ->.
      * rewrite Hn'. reflexivity.
      * inversion Hb as [|? ? Hb1 Hb2]; subst. rewrite Hb1. simpl.
        apply IH. exists before, n', after. auto.
Qed.

(** Every error names the [fullPath] the check ran with. *)
Lemma validateShape_errorPath (r : Route) (fullPath : string) (e : ConfigError) :
  validateShape r fullPath = Throws e -> errorPath e = fullPath.
Proof.
  unfold validateShape, throwIf.
  repeat match goal with
         | |- context [if ?c then Throws _ else Returns] =>
             destruct c; simpl;
             [intros H; injection H as <-; reflexivity|]
         end.
  destruct (redirectTo r); [|discriminate].
  match goal with
  | |- context [if ?c then Throws _ else Returns] =>
      destruct c; simpl; [intros H; injection H as <-; reflexivity | discriminate]
  end.
Qed.

Lemma InTree_preorder (r : Route) (config : Routes) :
  InTree r config ->
  forall parentPath, exists fullPath, In (r, fullPath) (preorder config parentPath).
Proof.
  induction 1 as [rest | p cs rest Hcs Hin IH | p rest Hin IH];
    intros parentPath; simpl.
  - exists (getFullPath parentPath r). apply in_or_app. left.
    rewrite nodesOf_unfold. left. reflexivity.
  - destruct (IH (getFullPath parentPath p)) as [fp Hfp].
    exists fp. apply in_or_app. left.
    rewrite nodesOf_unfold, Hcs. right. exact Hfp.
  - destruct (IH parentPath) as [fp Hfp].
    exists fp. apply in_or_app. right. exact Hfp.
Qed.

End ValidationOrder.

Section ValidationExtras.

Tactic Notation "check" integer(n) :=
  unfold validateShape;
  do n apply andThen_throws_r;
  apply andThen_throws_l, throwIf_true.

(** What passing the node checks means, check by check. *)
Lemma validateShape_Returns_inv (r : Route) (fullPath : string) :
  validateShape r fullPath = Returns ->
  (negb (present (component r)) && negb (present (children r))
   && negb (present (loadChildren r)) && namedOutlet (outlet r) = false) /\
  (truthyOptString (redirectTo r) && present (children r) = false) /\
  (truthyOptString (redirectTo r) && present (loadChildren r) = false) /\
  (present (children r) && present (loadChildren r) = false) /\
  (truthyOptString (redirectTo r) && present (component r) = false) /\
  (truthyOptString (redirectTo r) && present (canActivate r) = false) /\
  (truthyOptString (path r) && present (matcher r) = false) /\
  (negb (present (redirectTo r)) && negb (present (component r))
   && negb (present (children r)) && negb (present (loadChildren r)) = false) /\
  (negb (present (path r)) && negb (present (matcher r)) = false) /\
  (match path r with Some p => startsWithSlash p | None => false end = false) /\
  (present (redirectTo r) && isEmptyPath (path r)
   && negb (present (pathMatch r)) = false).
Proof.
  unfold validateShape, throwIf.
  repeat match goal with
         | |- context [if ?c then Throws _ else Returns] =>
             let H := fresh "Hc" in
             destruct c eqn:H; simpl; [discriminate|]
         end.
  intros Hlast. repeat (split; [reflexivity|]).
  destruct (redirectTo r); simpl; [|reflexivity].
  destruct (isEmptyPath (path r) && negb (present (pathMatch r)));
    [discriminate | reflexivity].
Qed.

(** X1.  With the checks compiled out ([ngDevMode] declared and falsy),
    [validateConfig] returns normally on every array of routes, whatever
    their shape. *)
Theorem validateConfig_disabled_accepts_all (g : NgDevMode) (config : Routes) :
  devModeEnabled g = false ->
  validateConfig g config = Returns.
Proof.
  intros Hdev. unfold validateConfig. generalize "".
  induction config as [|r rest IHcs IHrest] using Routes_tree_ind;
    intros parentPath; simpl; [reflexivity|].
  rewrite validateNode_unfold, Hdev, IHrest. simpl.
  destruct (children r) as [cs|] eqn:Hcs; [|reflexivity].
  rewrite (IHcs cs eq_refl). reflexivity.
Qed.

Lemma validateConfig_disabled_accepts_all_witness :
  validateConfig (Some false) [parentOf blankRoute; slashRoute] = Returns.
Proof.
  apply (validateConfig_disabled_accepts_all (Some false)). reflexivity.
Defined.

(** X2.  With the checks enabled, [validateConfig] accepts a
    configuration exactly when every node of the tree, checked with its
    own full path, passes the node checks. *)
Theorem validateConfig_accepts_iff (g : NgDevMode) (config : Routes) :
  devModeEnabled g = true ->
  (validateConfig g config = Returns <->
   Forall (fun n => validateShape (fst n) (snd n) = Returns)
          (preorder config "")).
Proof.
  intros Hdev. unfold validateConfig.
  rewrite (validateConfigFrom_checkAll g Hdev). apply checkAll_Returns.
Qed.

Lemma validateConfig_accepts_iff_witness :
  validateConfig None [shellRoute; fullMatchRedirectRoute] = Returns <->
  Forall (fun n => validateShape (fst n) (snd n) = Returns)
         (preorder [shellRoute; fullMatchRedirectRoute] "").
Proof.
  apply (validateConfig_accepts_iff None). reflexivity.
Defined.

(** X3.  With the checks enabled, [validateConfig] throws the error of
    the first node, in visiting order (a node, its children, then its
    right siblings), that fails its checks; the error carries that node's
    full path; nodes after it are not looked at. *)
Theorem validateConfig_first_failure
    (g : NgDevMode) (config : Routes) (e : ConfigError) :
  devModeEnabled g = true ->
  (validateConfig g config = Throws e <->
   exists before r after,
     preorder config "" = (before ++ (r, errorPath e) :: after)%list /\
     Forall (fun n => validateShape (fst n) (snd n) = Returns) before /\
     validateShape r (errorPath e) = Throws e).
Proof.
  intros Hdev. unfold validateConfig.
  rewrite (validateConfigFrom_checkAll g Hdev), checkAll_Throws.
  split.
  - intros (before & [r fp] & after & Heq & Hb & Hn). simpl in Hn.
    pose proof (validateShape_errorPath r fp e Hn) as Hfp. subst fp.
    exists before, r, after. auto.
  - intros (before & r & after & Heq & Hb & Hn).
    exists before, (r, errorPath e), after. auto.
Qed.

Lemma validateConfig_first_failure_witness :
  validateConfig None [parentOf pathOnlyRoute; slashRoute]
  = Throws (MissingContent "home/a").
Proof.
  apply (validateConfig_first_failure
           None [parentOf pathOnlyRoute; slashRoute] (MissingContent "home/a")).
  - reflexivity.
  - exists [(parentOf pathOnlyRoute, "home")], pathOnlyRoute, [(slashRoute, "/a")].
    split; [reflexivity|]. split; [repeat constructor | reflexivity].
Defined.

(** X4.  The invariants of an accepted configuration: with the checks
    enabled, every node of a tree that [validateConfig] accepts
    - has a path or a matcher, and no matcher beside a non-empty path;
    - has a redirect, a component, children or a lazy-load descriptor,
      but not children together with a lazy-load descriptor;
    - has no path that starts with a slash;
    - if its redirect is a non-empty string, has no children, lazy-load
      descriptor, component or activation guards;
    - if it redirects from the empty path, specifies [pathMatch];
    - if its outlet is a non-empty name other than [PRIMARY_OUTLET], has
      a component, children or a lazy-load descriptor. *)
Theorem validateConfig_accepted_invariants
    (g : NgDevMode) (config : Routes) (r : Route) :
  devModeEnabled g = true ->
  validateConfig g config = Returns ->
  InTree r config ->
  (path r <> None \/ matcher r <> None) /\
  (forall p, path r = Some p -> matcher r <> None -> p = "") /\
  (redirectTo r <> None \/ component r <> None \/ children r <> None \/
   loadChildren r <> None) /\
  (children r = None \/ loadChildren r = None) /\
  (forall p, path r = Some p -> startsWithSlash p = false) /\
  (forall target, redirectTo r = Some target -> target <> "" ->
     children r = None /\ loadChildren r = None /\ component r = None /\
     canActivate r = None) /\
  (redirectTo r <> None -> path r = Some "" -> pathMatch r <> None) /\
  (forall o, outlet r = Some o -> o <> "" -> o <> PRIMARY_OUTLET ->
     component r <> None \/ children r <> None \/ loadChildren r <> None).
Proof.
  intros Hdev Hok Hin.
  unfold validateConfig in Hok.
  rewrite (validateConfigFrom_checkAll g Hdev), checkAll_Returns in Hok.
  destruct (InTree_preorder r config Hin "") as [fp Hfp].
  rewrite Forall_forall in Hok.
  apply list_elem_of_In in Hfp. specialize (Hok _ Hfp). simpl in Hok.
  destruct (validateShape_Returns_inv r fp Hok)
    as (H0 & H1 & H2 & H3 & H4 & H5 & H6 & H7 & H8 & H9 & H10).
  clear Hok Hfp Hin.
  split; [|split; [|split; [|split; [|split; [|split; [|split]]]]]].
  - destruct (path r), (matcher r); simpl in H8;
      solve [discriminate | left; discriminate | right; discriminate].
  - intros p Hp Hm. rewrite Hp in H6. simpl in H6.
    rewrite (present_of_ne _ Hm), andb_true_r in H6.
    destruct p; [reflexivity | discriminate].
  - destruct (redirectTo r), (component r), (children r), (loadChildren r);
      simpl in H7;
      solve [discriminate | left; discriminate | right; left; discriminate
            | right; right; left; discriminate
            | right; right; right; discriminate].
  - destruct (children r), (loadChildren r); simpl in H3;
      solve [discriminate | left; reflexivity | right; reflexivity].
  - intros p Hp. rewrite Hp in H9. exact H9.
  - intros target Hrt Hne.
    rewrite Hrt in H1, H2, H4, H5. simpl in H1, H2, H4, H5.
    rewrite (truthyString_of_ne _ Hne) in H1, H2, H4, H5.
    destruct (children r); [discriminate|].
    destruct (loadChildren r); [discriminate|].
    destruct (component r); [discriminate|].
    destruct (canActivate r); [discriminate|].
    repeat split.
  - intros Hrt Hp Hpm. rewrite Hp, Hpm, (present_of_ne _ Hrt) in H10.
    discriminate.
  - intros o Ho Hne Hprim.
    rewrite Ho, (namedOutlet_Some _ Hne Hprim), andb_true_r in H0.
    destruct (component r), (children r), (loadChildren r); simpl in H0;
      solve [discriminate | left; discriminate | right; left; discriminate
            | right; right; discriminate].
Qed.

Lemma validateConfig_accepted_invariants_witness :
  (path leafRoute <> None \/ matcher leafRoute <> None) /\
  (forall p, path leafRoute = Some p -> matcher leafRoute <> None -> p = "") /\
  (redirectTo leafRoute <> None \/ component leafRoute <> None \/
   children leafRoute <> None \/ loadChildren leafRoute <> None) /\
  (children leafRoute = None \/ loadChildren leafRoute = None) /\
  (forall p, path leafRoute = Some p -> startsWithSlash p = false) /\
  (forall target, redirectTo leafRoute = Some target -> target <> "" ->
     children leafRoute = None /\ loadChildren leafRoute = None /\
     component leafRoute = None /\ canActivate leafRoute = None) /\
  (redirectTo leafRoute <> None -> path leafRoute = Some "" ->
   pathMatch leafRoute <> None) /\
  (forall o, outlet leafRoute = Some o -> o <> "" -> o <> PRIMARY_OUTLET ->
     component leafRoute <> None \/ children leafRoute <> None \/
     loadChildren leafRoute <> None).
Proof.
  apply (validateConfig_accepted_invariants
           None [shellRoute; fullMatchRedirectRoute] leafRoute).
  - reflexivity.
  - reflexivity.
  - apply InTree_child with (cs := [leafRoute]); [reflexivity | apply InTree_here].
Defined.

(** X5.  With the checks enabled, a tree containing a node whose path
    starts with a slash is rejected. *)
Theorem validateConfig_leading_slash_rejected
    (g : NgDevMode) (config : Routes) (r : Route) (rest : string) :
  devModeEnabled g = true ->
  InTree r config ->
  path r = Some (String "/"%char rest) ->
  exists e, validateConfig g config = Throws e.
Proof.
  intros Hdev Hin Hp.
  apply validateConfigFrom_rejects with (r := r); [assumption| |assumption].
  intros fullPath. check 9. rewrite Hp. reflexivity.
Qed.

Lemma validateConfig_leading_slash_rejected_witness :
  exists e, validateConfig None [parentOf slashRoute] = Throws e.
Proof.
  apply (validateConfig_leading_slash_rejected None _ slashRoute "a").
  - reflexivity.
  - apply InTree_child with (cs := [slashRoute]); [reflexivity | apply InTree_here].
  - reflexivity.
Defined.

(** X6.  With the checks enabled, a tree containing a node that has
    both children and a lazy-load descriptor is rejected. *)
Theorem validateConfig_children_and_loadChildren_rejected
    (g : NgDevMode) (config : Routes) (r : Route) :
  devModeEnabled g = true ->
  InTree r config ->
  children r <> None -> loadChildren r <> None ->
  exists e, validateConfig g config = Throws e.
Proof.
  intros Hdev Hin Hch Hlc.
  apply validateConfigFrom_rejects with (r := r); [assumption| |assumption].
  intros fullPath. check 3.
  rewrite (present_of_ne _ Hch), (present_of_ne _ Hlc). reflexivity.
Qed.

Lemma validateConfig_children_and_loadChildren_rejected_witness :
  exists e, validateConfig None [leafRoute; childrenAndLazyRoute] = Throws e.
Proof.
  apply (validateConfig_children_and_loadChildren_rejected
           None _ childrenAndLazyRoute).
  - reflexivity.
  - apply InTree_later, InTree_here.
  - discriminate.
  - discriminate.
Defined.

(** X7.  With the checks enabled, a tree containing a node that has none
    of [redirectTo], [component], [children] and [loadChildren] is
    rejected. *)
Theorem validateConfig_contentless_rejected
    (g : NgDevMode) (config : Routes) (r : Route) :
  devModeEnabled g = true ->
  InTree r config ->
  redirectTo r = None -> component r = None -> children r = None ->
  loadChildren r = None ->
  exists e, validateConfig g config = Throws e.
Proof.
  intros Hdev Hin Hrt Hc Hch Hlc.
  apply validateConfigFrom_rejects with (r := r); [assumption| |assumption].
  intros fullPath. check 7. rewrite Hrt, Hc, Hch, Hlc. reflexivity.
Qed.

Lemma validateConfig_contentless_rejected_witness :
  exists e, validateConfig None [parentOf pathOnlyRoute] = Throws e.
Proof.
  apply (validateConfig_contentless_rejected None _ pathOnlyRoute).
  - reflexivity.
  - apply InTree_child with (cs := [pathOnlyRoute]);
      [reflexivity | apply InTree_here].
  - reflexivity.
  - reflexivity.
  - reflexivity.
  - reflexivity.
Defined.

(** The node checks do not see the placeholder: it is only inserted
    where the checks that read [component] have their outcome fixed by
    [children] or [loadChildren]. *)
Lemma validateShape_standardizeConfig (r : Route) (fullPath : string) :
  validateShape (standardizeConfig r) fullPath = validateShape r fullPath.
Proof.
  unfold validateShape.
  destruct (standardizeConfig_frame r)
    as (Fp & Fpm & Fm & Frt & Fo & Fca & Flc & Fi & Flr & Fli).
  rewrite Fp, Fpm, Fm, Frt, Fo, Fca, Flc, standardizeConfig_component,
    standardizeConfig_children.
  replace (present (map standardizeConfig <$> children r))
    with (present (children r)) by (destruct (children r); reflexivity).
  destruct (needsEmptyOutlet r) eqn:Hneeds; [|reflexivity].
  unfold needsEmptyOutlet in Hneeds.
  destruct (component r); [discriminate|].
  destruct (outlet r) as [o|]; [|rewrite andb_false_r in Hneeds; discriminate].
  destruct (children r), (loadChildren r); try discriminate;
    destruct (redirectTo r) as [[|c t]|]; reflexivity.
Qed.

Lemma getFullPath_standardizeConfig (parentPath : string) (r : Route) :
  getFullPath parentPath (standardizeConfig r) = getFullPath parentPath r.
Proof.
  unfold getFullPath.
  destruct (standardizeConfig_frame r) as (-> & _). reflexivity.
Qed.

(** X8.  Normalising a configuration does not change what
    [validateConfig] makes of it: the same outcome, down to the error
    thrown, with the checks enabled or not.  (The router validates the
    configuration it is given and keeps the normalised one.) *)
Theorem validateConfig_standardizeConfig (g : NgDevMode) (config : Routes) :
  validateConfig g (map standardizeConfig config) = validateConfig g config.
Proof.
  unfold validateConfig. generalize "".
  induction config as [|r rest IHcs IHrest] using Routes_tree_ind;
    intros parentPath; simpl; [reflexivity|].
  rewrite IHrest, getFullPath_standardizeConfig.
  rewrite !validateNode_unfold, validateShape_standardizeConfig,
    standardizeConfig_children.
  destruct (children r) as [cs|] eqn:Hcs; simpl; [|reflexivity].
  rewrite (IHcs cs eq_refl). reflexivity.
Qed.

Lemma string_app_assoc (a b c : string) : ((a ++ b) ++ c) = (a ++ b ++ c).
Proof.
  induction a as [|x a IH]; [reflexivity|].
  change (String x ((a ++ b) ++ c) = String x (a ++ b ++ c)).
  f_equal. exact IH.
Qed.

Lemma truthyString_app (a b : string) :
  truthyString a = true -> truthyString (a ++ b) = true.
Proof. destruct a; [discriminate | reflexivity]. Qed.

(** [getFullPath] in two cases instead of four. *)
Lemma getFullPath_join (parentPath : string) (r : Route) :
  getFullPath parentPath r =
  if truthyString parentPath then parentPath ++ "/" ++ pathOrEmpty r
  else pathOrEmpty r.
Proof.
  unfold getFullPath, pathOrEmpty.
  destruct (truthyString parentPath), (path r) as [[|c p]|]; reflexivity.
Qed.

Lemma concat_cons_join (a p : string) (ps : list string) :
  String.concat "/" ((a ++ "/" ++ p) :: ps) = (a ++ "/" ++ String.concat "/" (p :: ps)).
Proof.
  destruct ps as [|q ps]; [reflexivity|].
  change (String.concat "/" ((a ++ "/" ++ p) :: q :: ps))
    with ((a ++ "/" ++ p) ++ "/" ++ String.concat "/" (q :: ps)).
  change (String.concat "/" (p :: q :: ps))
    with (p ++ "/" ++ String.concat "/" (q :: ps)).
  rewrite string_app_assoc. reflexivity.
Qed.

Lemma fullPathAlong_truthy (chain : list Route) :
  forall parentPath,
    truthyString parentPath = true ->
    fullPathAlong parentPath chain
    = String.concat "/" (parentPath :: map pathOrEmpty chain).
Proof.
  unfold fullPathAlong.
  induction chain as [|r chain IH]; intros parentPath Hpp; [reflexivity|].
  cbn [foldl map]. rewrite getFullPath_join, Hpp.
  rewrite IH by (apply truthyString_app, Hpp).
  rewrite concat_cons_join. reflexivity.
Qed.

(** [getFullPath] along a chain joins the paths of the chain. *)
Lemma fullPathAlong_joins_paths (chain : list Route) :
  fullPathAlong "" chain
  = String.concat "/" (dropEmpty (map pathOrEmpty chain)).
Proof.
  induction chain as [|r chain IH]; [reflexivity|].
  unfold fullPathAlong in *. cbn [foldl map]. rewrite getFullPath_join.
  cbn [truthyString].
  destruct (pathOrEmpty r) as [|c p] eqn:Hr.
  - exact IH.
  - apply (fullPathAlong_truthy chain (String c p)). reflexivity.
Qed.

(** Every call of [validateNode] is for the last node of a chain, with
    the full path computed along that chain. *)
Lemma preorder_chain (config : Routes) :
  forall (parentPath : string) (r : Route) (fullPath : string),
    In (r, fullPath) (preorder config parentPath) ->
    exists chain,
      Chain config chain /\ last chain = Some r /\
      fullPath = fullPathAlong parentPath chain.
Proof.
  induction config as [|p rest IHcs IHrest] using Routes_tree_ind;
    intros parentPath r fullPath Hin; simpl in Hin; [contradiction|].
  apply in_app_or in Hin. destruct Hin as [Hin | Hin].
  - rewrite nodesOf_unfold in Hin. destruct Hin as [Heq | Hin].
    + injection Heq as <- <-. exists [p].
      split; [apply Chain_last; left; reflexivity|]. split; reflexivity.
    + destruct (children p) as [cs|] eqn:Hcs; [|contradiction].
      destruct (IHcs cs eq_refl _ _ _ Hin) as (chain & Hchain & Hlast & ->).
      exists (p :: chain). split; [|split].
      * eapply Chain_step; [left; reflexivity | exact Hcs | exact Hchain].
      * destruct chain as [|c chain]; [discriminate | exact Hlast].
      * reflexivity.
  - destruct (IHrest _ _ _ Hin) as (chain & Hchain & Hlast & ->).
    exists chain. split; [|split; [exact Hlast | reflexivity]].
    clear -Hchain. inversion Hchain; subst.
    + apply Chain_last. right. assumption.
    + eapply Chain_step; [right|..]; eassumption.
Qed.

(** X9.  The full path that [validateConfig] computes for a node (the
    one its error messages show) is made of the paths along the chain of
    nodes leading to it (a missing path counting as empty), without the
    leading empty ones, joined by slashes. *)
Theorem fullPath_joins_chain (config : Routes) (r : Route) (fullPath : string) :
  In (r, fullPath) (preorder config "") ->
  exists chain,
    Chain config chain /\ last chain = Some r /\
    fullPath = String.concat "/" (dropEmpty (map pathOrEmpty chain)).
Proof.
  intros Hin.
  destruct (preorder_chain config "" r fullPath Hin) as (chain & Hc & Hl & ->).
  exists chain. split; [exact Hc|]. split; [exact Hl|].
  apply fullPathAlong_joins_paths.
Qed.

Lemma fullPath_joins_chain_witness :
  exists chain,
    Chain [shellRoute; fullMatchRedirectRoute] chain /\
    last chain = Some leafRoute /\
    "b" = String.concat "/" (dropEmpty (map pathOrEmpty chain)).
Proof.
  apply (fullPath_joins_chain [shellRoute; fullMatchRedirectRoute] leafRoute "b").
  right. left. reflexivity.
Defined.

(** The full path of the examples: the empty path of [shellRoute] is
    skipped. *)
Example fullPathAlong_example :
  fullPathAlong "" [shellRoute; parentOf leafRoute; leafRoute] = "home/b" /\
  preorder [shellRoute] "" = [(shellRoute, ""); (leafRoute, "b")].
Proof. split; reflexivity. Qed.

Lemma validateEntries_routes (g : NgDevMode) (config : Routes) (parentPath : string) :
  validateEntries g (map RouteEntry config) parentPath
  = entryOutcome (validateConfigFrom g config parentPath).
Proof.
  induction config as [|r rest IH]; simpl; [reflexivity|].
  destruct (validateNode g r (getFullPath parentPath r)); simpl;
    [exact IH | reflexivity].
Qed.

Lemma validateEntries_app (g : NgDevMode) (before after : list ConfigEntry)
    (parentPath : string) :
  validateEntries g before parentPath = EntryReturns ->
  validateEntries g (before ++ after)%list parentPath
  = validateEntries g after parentPath.
Proof.
  induction before as [|e before IH]; simpl; [reflexivity|].
  destruct (validateEntry g e (getFullPathOfEntry parentPath e));
    [exact IH | discriminate].
Qed.

(** X10.  An [undefined] element (a hole left by an extra comma) after
    routes that validate: with the checks enabled [validateConfig] throws
    the undefined-route error, which names [parentPath]; with the checks
    compiled out it still throws, a [TypeError] from reading
    [route.children]. *)
Theorem validateEntries_undefined_element
    (g : NgDevMode) (valid : Routes) (rest : list ConfigEntry)
    (parentPath : string) :
  validateConfigFrom g valid parentPath = Returns ->
  validateEntries g (map RouteEntry valid ++ UndefinedEntry :: rest)%list
                  parentPath
  = EntryThrows (if devModeEnabled g then UndefinedRoute parentPath
                 else TypeErrorReadingChildren).
Proof.
  intros Hvalid.
  rewrite validateEntries_app
    by (rewrite validateEntries_routes, Hvalid; reflexivity).
  simpl. destruct (devModeEnabled g); reflexivity.
Qed.

Lemma validateEntries_undefined_element_witness :
  validateEntries None [RouteEntry leafRoute; UndefinedEntry; RouteEntry leafRoute] ""
  = EntryThrows (UndefinedRoute "") /\
  validateEntries (Some false) [RouteEntry slashRoute; UndefinedEntry] ""
  = EntryThrows TypeErrorReadingChildren.
Proof.
  split.
  - apply (validateEntries_undefined_element
             None [leafRoute] [RouteEntry leafRoute] ""). reflexivity.
  - apply (validateEntries_undefined_element (Some false) [slashRoute] [] "").
    reflexivity.
Defined.

(** X11.  An element that is itself an array, after routes that
    validate: with the checks enabled [validateConfig] throws the
    array error (its full path is [parentPath] followed by a slash, or
    empty at the top level); with the checks compiled out the element is
    skipped and validation goes on with the elements after it. *)
Theorem validateEntries_array_element
    (g : NgDevMode) (valid : Routes) (rest : list ConfigEntry)
    (parentPath : string) :
  validateConfigFrom g valid parentPath = Returns ->
  validateEntries g (map RouteEntry valid ++ ArrayEntry :: rest)%list parentPath
  = if devModeEnabled g
    then EntryThrows (ArrayAsRoute (if truthyString parentPath
                                    then parentPath ++ "/" else ""))
    else validateEntries g rest parentPath.
Proof.
  intros Hvalid.
  rewrite validateEntries_app
    by (rewrite validateEntries_routes, Hvalid; reflexivity).
  simpl. destruct (devModeEnabled g); reflexivity.
Qed.

Lemma validateEntries_array_element_witness :
  validateEntries None [RouteEntry leafRoute; ArrayEntry] "home"
  = EntryThrows (ArrayAsRoute "home/") /\
  validateEntries (Some false) [ArrayEntry; RouteEntry leafRoute] ""
  = EntryReturns.
Proof.
  split.
  - apply (validateEntries_array_element None [leafRoute] [] "home").
    reflexivity.
  - apply (validateEntries_array_element (Some false) [] [RouteEntry leafRoute] "").
    reflexivity.
Defined.

End ValidationExtras.

(** * Further properties of the normaliser *)

Section NormalisationExtras.

Lemma InTree_cons_inv (n p : Route) (rest : Routes) :
  InTree n (p :: rest) ->
  n = p \/ (exists cs, children p = Some cs /\ InTree n cs) \/ InTree n rest.
Proof.
  inversion 1; subst; [left; reflexivity | right; left; eauto | right; right; assumption].
Qed.

Lemma InTree_of_member (n c : Route) (cs : Routes) :
  In c cs -> InTree n [c] -> InTree n cs.
Proof.
  induction cs as [|d cs IH]; intros Hin Hn; [contradiction|].
  destruct Hin as [-> | Hin].
  - destruct (InTree_cons_inv _ _ _ Hn) as [-> | [(ds & Hds & Hd) | Hnil]].
    + apply InTree_here.
    + eapply InTree_child; eassumption.
    + inversion Hnil.
  - apply InTree_later, IH; assumption.
Qed.

(** A normalised node never needs the placeholder again. *)
Lemma needsEmptyOutlet_standardizeConfig (r : Route) :
  needsEmptyOutlet (standardizeConfig r) = false.
Proof.
  unfold needsEmptyOutlet at 1.
  destruct (standardizeConfig_frame r)
    as (Fp & Fpm & Fm & Frt & Fo & Fca & Flc & Fi & Flr & Fli).
  rewrite Fo, Flc, standardizeConfig_component, standardizeConfig_children.
  replace (present (map standardizeConfig <$> children r))
    with (present (children r)) by (destruct (children r); reflexivity).
  destruct (needsEmptyOutlet r) eqn:Hneeds; [reflexivity|].
  exact Hneeds.
Qed.

Lemma standardizeConfig_normal (config : Routes) :
  forall n, InTree n (map standardizeConfig config) -> needsEmptyOutlet n = false.
Proof.
  induction config as [|r rest IHcs IHrest] using Routes_tree_ind;
    intros n Hin; simpl in Hin; [inversion Hin|].
  destruct (InTree_cons_inv _ _ _ Hin) as [-> | [(cs' & Hcs' & Hn) | Hn]].
  - apply needsEmptyOutlet_standardizeConfig.
  - rewrite standardizeConfig_children in Hcs'.
    destruct (children r) as [cs|] eqn:Hcs; [|discriminate].
    injection Hcs' as <-. apply (IHcs cs eq_refl), Hn.
  - apply IHrest, Hn.
Qed.

(** X12.  What normalisation is for: in a normalised configuration,
    every node that has children or a lazy-load descriptor and whose
    outlet is a non-empty name other than [PRIMARY_OUTLET] has a
    component, at every depth of the tree. *)
Theorem standardizeConfig_named_outlets_have_component
    (config : Routes) (n : Route) (o : string) :
  InTree n (map standardizeConfig config) ->
  outlet n = Some o -> o <> "" -> o <> PRIMARY_OUTLET ->
  children n <> None \/ loadChildren n <> None ->
  component n <> None.
Proof.
  intros Hin Ho Hne Hprim Hsub.
  pose proof (standardizeConfig_normal config n Hin) as Hnormal.
  unfold needsEmptyOutlet in Hnormal.
  rewrite Ho, (namedOutlet_Some _ Hne Hprim), andb_true_r in Hnormal.
  destruct (component n); [discriminate|].
  destruct Hsub as [H | H]; apply present_of_ne in H; rewrite H in Hnormal;
    simpl in Hnormal; [|rewrite orb_true_r in Hnormal]; discriminate.
Qed.

Lemma standardizeConfig_named_outlets_have_component_witness :
  component (standardizeConfig lazyAuxRoute) <> None.
Proof.
  apply (standardizeConfig_named_outlets_have_component
           [parentOf lazyAuxRoute] (standardizeConfig lazyAuxRoute) "aux").
  - apply InTree_child with (cs := [standardizeConfig lazyAuxRoute]);
      [reflexivity | apply InTree_here].
  - reflexivity.
  - discriminate.
  - discriminate.
  - right. discriminate.
Defined.

(** X13.  The fixed points of [standardizeConfig] are exactly the trees
    none of whose nodes needs the placeholder (a node needs it when it
    has no component, has children or a lazy-load descriptor, and has a
    non-empty outlet other than [PRIMARY_OUTLET]). *)
Theorem standardizeConfig_fixed_points (r : Route) :
  standardizeConfig r = r <->
  (forall n, InTree n [r] -> needsEmptyOutlet n = false).
Proof.
  split.
  - intros Hfix n Hn. apply (standardizeConfig_normal [r]). simpl.
    rewrite Hfix. exact Hn.
  - induction r as [r IH] using Route_children_ind. intros Hnormal.
    rewrite standardizeConfig_unfold.
    assert (Hkids : match children r with
                    | Some cs => withChildren r (map standardizeConfig cs)
                    | None => r
                    end = r).
    { destruct (children r) as [cs|] eqn:Hcs; [|reflexivity].
      assert (Hmap : map standardizeConfig cs = cs).
      { specialize (IH cs eq_refl). rewrite Forall_forall in IH.
        assert (Hall : forall c, In c cs -> standardizeConfig c = c).
        { intros c Hc. apply IH; [apply list_elem_of_In, Hc|].
          intros n Hn. apply Hnormal.
          eapply InTree_child; [exact Hcs|].
          eapply InTree_of_member; eassumption. }
        clear -Hall. induction cs as [|c cs IHcs]; [reflexivity|].
        simpl. rewrite (Hall c (or_introl eq_refl)), IHcs; [reflexivity|].
        intros d Hd. apply Hall. right. exact Hd. }
      rewrite Hmap. destruct r; simpl in *. subst. reflexivity. }
    cbv zeta. rewrite Hkids, (Hnormal r (InTree_here r [])). reflexivity.
Qed.

(** X14.  Normalisation keeps the shape of the tree and what the user
    configured: the nodes of the normalised configuration are exactly the
    normalised nodes of the configuration, and a node that has a
    component keeps it. *)
Theorem standardizeConfig_nodes (config : Routes) :
  (forall n', InTree n' (map standardizeConfig config) <->
              exists n, InTree n config /\ n' = standardizeConfig n) /\
  (forall n x, component n = Some x ->
               component (standardizeConfig n) = Some x).
Proof.
  split.
  - induction config as [|r rest IHcs IHrest] using Routes_tree_ind;
      intros n'; simpl.
    + split; [inversion 1 | intros (n & Hn & _); inversion Hn].
    + split.
      * intros Hin.
        destruct (InTree_cons_inv _ _ _ Hin) as [-> | [(cs' & Hcs' & Hn) | Hn]].
        -- exists r. split; [apply InTree_here | reflexivity].
        -- rewrite standardizeConfig_children in Hcs'.
           destruct (children r) as [cs|] eqn:Hcs; [|discriminate].
           injection Hcs' as <-.
           apply (IHcs cs eq_refl) in Hn. destruct Hn as (n & Hn & ->).
           exists n. split; [|reflexivity].
           eapply InTree_child; eassumption.
        -- apply IHrest in Hn. destruct Hn as (n & Hn & ->).
           exists n. split; [apply InTree_later, Hn | reflexivity].
      * intros (n & Hin & ->).
        destruct (InTree_cons_inv _ _ _ Hin) as [-> | [(cs & Hcs & Hn) | Hn]].
        -- apply InTree_here.
        -- apply InTree_child with (cs := map standardizeConfig cs).
           ++ rewrite standardizeConfig_children, Hcs. reflexivity.
           ++ apply (IHcs cs Hcs). exists n. split; [exact Hn | reflexivity].
        -- apply InTree_later, IHrest. exists n. split; [exact Hn | reflexivity].
  - intros n x Hx. rewrite standardizeConfig_component.
    unfold needsEmptyOutlet. rewrite Hx. reflexivity.
Qed.

End NormalisationExtras.

(** * Further properties of the store-level normaliser *)

Section StoreExtras.

(** A [map] whose callback returns newly allocated references returns an
    array of as many newly allocated references. *)
Lemma mapM_fresh {A : Type} (f : A -> Store.M Store.loc) :
  (forall x h y h', f x h = Some (y, h') ->
     (exists ext, h' = (h ++ ext)%list) /\ length h <= y < length h') ->
  forall xs h ys h',
    Store.mapM f xs h = Some (ys, h') ->
    length h <= length h' /\
    length ys = length xs /\
    Forall (fun y => length h <= y < length h') ys.
Proof.
  intros Hf. induction xs as [|x xs IH]; intros h ys h' Hrun; simpl in Hrun.
  - injection Hrun as <- <-. repeat split; [lia | constructor].
  - unfold Store.bind at 1 in Hrun.
    destruct (f x h) as [[y h1]|] eqn:Hx; [|discriminate].
    unfold Store.bind at 1 in Hrun.
    destruct (Store.mapM f xs h1) as [[ys' h2]|] eqn:Hxs; [|discriminate].
    injection Hrun as <- <-.
    destruct (Hf _ _ _ _ Hx) as [[ext1 ->] Hy].
    destruct (IH _ _ _ Hxs) as (Hlen & Hn & Hall).
    rewrite length_app in *.
    split; [lia|]. split; [simpl; lia|].
    constructor; [lia|].
    eapply Forall_impl; [exact Hall|]. intros z Hz. simpl in Hz. lia.
Qed.

(** X15.  The copy is deep along [children] and shallow for
    [_loadedRoutes]: whenever a call on [r] returns [c], the new object
    has a [children] array exactly when the argument has one, with as
    many elements, every one of them a reference to an object allocated
    by this call (so the result shares no child with its argument), and
    its [_loadedRoutes] is the argument's. *)
Theorem standardizeConfig_copies_children
    (fuel : nat) (r : Store.loc) (h : Store.heap)
    (c : Store.loc) (h' : Store.heap) :
  Store.standardizeConfig fuel r h = Some (c, h') ->
  exists (o oc : Store.RouteObj),
    h !! r = Some o /\
    h' !! c = Some oc /\
    Store.obj_loadedRoutes oc = Store.obj_loadedRoutes o /\
    match Store.obj_children o, Store.obj_children oc with
    | Some cs, Some cs' =>
        length cs' = length cs /\
        Forall (fun l => h !! l = None /\ is_Some (h' !! l) /\ l <> c) cs'
    | None, None => True
    | _, _ => False
    end.
Proof.
  destruct fuel as [|fuel]; [discriminate|].
  intros Hrun. cbn [Store.standardizeConfig] in Hrun.
  unfold Store.bind at 1, Store.load at 1 in Hrun.
  destruct (h !! r) as [o|] eqn:Hr; [|discriminate].
  unfold Store.bind at 1 in Hrun.
  destruct (Store.obj_children o) as [cs|] eqn:Eo.
  - unfold Store.bind at 1 in Hrun.
    destruct (Store.mapM (Store.standardizeConfig fuel) cs h)
      as [[cs' h1]|] eqn:Hmap; [|discriminate].
    unfold Store.ret at 1 in Hrun.
    rewrite alloc_then_patch in Hrun. injection Hrun as <- <-.
    destruct (mapM_fresh (Store.standardizeConfig fuel)) with
      (xs := cs) (h := h) (ys := cs') (h' := h1) as (Hlen & Hn & Hall);
      [|exact Hmap|].
    { intros x h0 y h0' Hx.
      destruct (standardizeConfig_only_allocates fuel x h0 y h0' Hx)
        as (ext & _ & oy & -> & Hy & _ & Hoy & _).
      split; [exists ext; reflexivity|].
      split; [exact Hy | eapply lookup_lt_Some; exact Hoy]. }
    eexists o, _. split; [reflexivity|].
    split; [apply list_lookup_middle; reflexivity|].
    split.
    + destruct (Store.needsEmptyOutlet _ _); reflexivity.
    + replace (Store.obj_children
                 (if Store.needsEmptyOutlet (Some cs') (Store.withChildren o cs')
                  then Store.withComponent (Store.withChildren o cs')
                                           EmptyOutletComponent
                  else Store.withChildren o cs'))
        with (Some cs') by (destruct (Store.needsEmptyOutlet _ _); reflexivity).
      rewrite Eo. cbn beta iota.
      split; [exact Hn|].
      eapply Forall_impl; [exact Hall|]. intros l Hl. simpl in Hl.
      split; [apply lookup_ge_None; lia|].
      split; [|lia].
      apply lookup_lt_is_Some. rewrite length_app. lia.
  - unfold Store.ret at 1 in Hrun.
    rewrite alloc_then_patch in Hrun. injection Hrun as <- <-.
    eexists o, _. split; [reflexivity|].
    split; [apply list_lookup_middle; reflexivity|].
    split; destruct (Store.needsEmptyOutlet _ _); simpl; rewrite ?Eo; auto.
Qed.

Lemma standardizeConfig_copies_children_witness :
  exists (o oc : Store.RouteObj),
    sampleStore !! 1 = Some o /\
    [leafObj; auxParentObj; leafObj;
     Store.mkObj (Some "a") None None (Some EmptyOutletComponent) None
                 (Some "aux") None (Some [2]) None None None None] !! 3
    = Some oc /\
    Store.obj_loadedRoutes oc = Store.obj_loadedRoutes o /\
    match Store.obj_children o, Store.obj_children oc with
    | Some cs, Some cs' =>
        length cs' = length cs /\
        Forall (fun l => sampleStore !! l = None /\
                         is_Some ([leafObj; auxParentObj; leafObj;
                                   Store.mkObj (Some "a") None None
                                     (Some EmptyOutletComponent) None
                                     (Some "aux") None (Some [2]) None None
                                     None None] !! l) /\ l <> 3) cs'
    | None, None => True
    | _, _ => False
    end.
Proof.
  apply (standardizeConfig_copies_children 3 1 sampleStore). reflexivity.
Defined.

End StoreExtras.

(** * Further properties of the outlet helpers *)

Section OutletExtras.

Lemma getOutlet_nonempty (route : Route) : getOutlet route <> "".
Proof.
  unfold getOutlet. destruct (outlet route) as [[|c o]|]; discriminate.
Qed.

Lemma getOutlet_standardizeConfig (r : Route) :
  getOutlet (standardizeConfig r) = getOutlet r.
Proof.
  unfold getOutlet.
  destruct (standardizeConfig_frame r) as (_ & _ & _ & _ & -> & _).
  reflexivity.
Qed.

Lemma filter_map_standardizeConfig (P : Route -> Prop)
    `{!forall r, Decision (P r)} (routes : Routes) :
  (forall r, P (standardizeConfig r) <-> P r) ->
  filter P (map standardizeConfig routes)
  = map standardizeConfig (filter P routes).
Proof.
  intros Hinv. induction routes as [|r routes IH]; [reflexivity|].
  cbn [map]. destruct (decide (P r)) as [Hr | Hr].
  - rewrite (filter_cons_True _ r routes Hr). cbn [map].
    rewrite filter_cons_True, IH by (apply Hinv; exact Hr).
    reflexivity.
  - rewrite (filter_cons_False _ r routes Hr).
    rewrite filter_cons_False, IH by (rewrite Hinv; exact Hr).
    reflexivity.
Qed.

Lemma Forall_filter_self {A : Type} (P : A -> Prop)
    `{!forall x, Decision (P x)} (l : list A) :
  Forall P (filter P l).
Proof. apply Forall_forall. intros x Hx. apply list_elem_of_filter in Hx. tauto. Qed.

(** Partitioning a partitioned list by the same predicate changes
    nothing. *)
Lemma partition_idempotent {A : Type} (P : A -> Prop)
    `{!forall x, Decision (P x)} (l : list A) :
  (filter P (filter P l ++ filter (fun x => ~ P x) l)
   ++ filter (fun x => ~ P x) (filter P l ++ filter (fun x => ~ P x) l))%list
  = (filter P l ++ filter (fun x => ~ P x) l)%list.
Proof.
  pose proof (Forall_filter_self P l) as HP.
  pose proof (Forall_filter_self (fun x => ~ P x) l) as HQ.
  assert (HPn : Forall (fun x => ~ ~ P x) (filter P l))
    by (eapply Forall_impl; [exact HP|]; intros x Hx Hn; exact (Hn Hx)).
  rewrite !filter_app.
  rewrite (filter_all P _ HP), (filter_none P _ HQ).
  rewrite (filter_none _ _ HPn), (filter_all _ _ HQ).
  rewrite app_nil_r. reflexivity.
Qed.

Lemma filter_sub {A : Type} (P R : A -> Prop)
    `{!forall x, Decision (P x)} `{!forall x, Decision (R x)} (l : list A) :
  (forall x, R x -> P x) -> filter R (filter P l) = filter R l.
Proof.
  intros Hsub. induction l as [|x l IH]; [reflexivity|].
  destruct (decide (P x)) as [Hp | Hp].
  - rewrite (filter_cons_True P x l Hp).
    destruct (decide (R x)) as [Hr | Hr].
    + rewrite !(filter_cons_True R) by exact Hr. rewrite IH. reflexivity.
    + rewrite !(filter_cons_False R) by exact Hr. exact IH.
  - rewrite (filter_cons_False P x l Hp).
    rewrite (filter_cons_False R x l) by (intros Hr; exact (Hp (Hsub x Hr))).
    exact IH.
Qed.

Lemma filter_disjoint {A : Type} (P R : A -> Prop)
    `{!forall x, Decision (P x)} `{!forall x, Decision (R x)} (l : list A) :
  (forall x, R x -> ~ P x) -> filter R (filter P l) = [].
Proof.
  intros Hdis. apply filter_none, Forall_forall. intros x Hx Hr.
  apply list_elem_of_filter in Hx. exact (Hdis x Hr (proj1 Hx)).
Qed.

(** Partitioning by [P] keeps the order of the elements selected by a
    predicate that lies within [P] or within its complement. *)
Lemma filter_partition {A : Type} (P R : A -> Prop)
    `{!forall x, Decision (P x)} `{!forall x, Decision (R x)} (l : list A) :
  (forall x, R x -> P x) \/ (forall x, R x -> ~ P x) ->
  filter R (filter P l ++ filter (fun x => ~ P x) l)%list = filter R l.
Proof.
  intros Hcase. rewrite filter_app. destruct Hcase as [Hsub | Hdis].
  - rewrite (filter_sub P R l Hsub).
    rewrite (filter_disjoint (fun x => ~ P x) R l); [apply app_nil_r|].
    intros x Hr Hn. exact (Hn (Hsub x Hr)).
  - rewrite (filter_disjoint P R l Hdis).
    apply (filter_sub (fun x => ~ P x) R l Hdis).
Qed.

Lemma head_partition {A : Type} (P : A -> Prop)
    `{!forall x, Decision (P x)} (l : list A) :
  head (filter P l ++ filter (fun x => ~ P x) l)%list
  = match head (filter P l) with
    | Some x => Some x
    | None => head l
    end.
Proof.
  destruct (filter P l) as [|x xs] eqn:Hf; [|reflexivity].
  simpl. rewrite filter_all; [reflexivity|].
  apply Forall_forall. intros x Hx Hp.
  assert (Hin : x ∈ filter P l) by (apply list_elem_of_filter; tauto).
  rewrite Hf in Hin. inversion Hin.
Qed.

Lemma head_filter_find {A : Type} (P : A -> Prop)
    `{!forall x, Decision (P x)} (f : A -> bool) (l : list A) :
  (forall x, f x = true <-> P x) ->
  head (filter P l) = List.find f l.
Proof.
  intros Hf. induction l as [|x l IH]; [reflexivity|].
  cbn [List.find]. destruct (decide (P x)) as [Hp | Hp].
  - rewrite (filter_cons_True P x l Hp).
    rewrite (proj2 (Hf x) Hp). reflexivity.
  - rewrite (filter_cons_False P x l Hp).
    destruct (f x) eqn:Hfx; [|exact IH].
    exfalso. apply Hp, Hf, Hfx.
Qed.

(** X16.  [getOutlet] never returns the empty string (an empty outlet
    counts as unset), so sorting by the empty name moves nothing. *)
Theorem getOutlet_never_empty :
  (forall route, getOutlet route <> "") /\
  (forall routes, sortByMatchingOutlets routes "" = routes).
Proof.
  split; [exact getOutlet_nonempty|].
  intros routes. unfold sortByMatchingOutlets.
  rewrite (filter_none (fun r => getOutlet r = "")),
    (filter_all (fun r => getOutlet r <> ""));
    [reflexivity | |];
    apply Forall_forall; intros r _; apply getOutlet_nonempty.
Qed.

(** X17.  Sorting by the same outlet twice changes nothing more. *)
Theorem sortByMatchingOutlets_idempotent (routes : Routes) (outletName : string) :
  sortByMatchingOutlets (sortByMatchingOutlets routes outletName) outletName
  = sortByMatchingOutlets routes outletName.
Proof.
  apply (partition_idempotent (fun r => getOutlet r = outletName)).
Qed.

(** X18.  Sorting by one outlet never reorders the routes of any outlet:
    for every outlet name, the routes of that outlet come in the result
    in the order they have in the input. *)
Theorem sortByMatchingOutlets_keeps_outlet_order
    (routes : Routes) (outletName other : string) :
  filter (fun r => getOutlet r = other) (sortByMatchingOutlets routes outletName)
  = filter (fun r => getOutlet r = other) routes.
Proof.
  apply (filter_partition (fun r => getOutlet r = outletName)
                          (fun r => getOutlet r = other)).
  destruct (decide (other = outletName)) as [-> | Hne].
  - left. intros r Hr. exact Hr.
  - right. intros r Hr Hn. congruence.
Qed.

(** X19.  Sorting by outlet and normalising commute: normalisation does
    not change any route's outlet. *)
Theorem sortByMatchingOutlets_standardizeConfig
    (routes : Routes) (outletName : string) :
  sortByMatchingOutlets (map standardizeConfig routes) outletName
  = map standardizeConfig (sortByMatchingOutlets routes outletName).
Proof.
  unfold sortByMatchingOutlets; cbv zeta. rewrite map_app.
  f_equal.
  - apply (filter_map_standardizeConfig (fun r => getOutlet r = outletName)).
    intros r. rewrite getOutlet_standardizeConfig. reflexivity.
  - apply (filter_map_standardizeConfig (fun r => getOutlet r <> outletName)).
    intros r. rewrite getOutlet_standardizeConfig. reflexivity.
Qed.

(** X20.  The route tried first: the head of the sorted sequence is the
    first route of the input whose outlet is [outletName] or, when there
    is none, the first route of the input. *)
Theorem sortByMatchingOutlets_head (routes : Routes) (outletName : string) :
  head (sortByMatchingOutlets routes outletName)
  = match List.find (fun r => String.eqb (getOutlet r) outletName) routes with
    | Some r => Some r
    | None => head routes
    end.
Proof.
  unfold sortByMatchingOutlets; cbv zeta.
  rewrite <- (head_filter_find (fun r => getOutlet r = outletName)
                (fun r => String.eqb (getOutlet r) outletName) routes)
    by (intros r; apply String.eqb_eq).
  apply (head_partition (fun r => getOutlet r = outletName)).
Qed.

(** X21.  When every route or no route has the outlet [outletName], the
    result is the input. *)
Theorem sortByMatchingOutlets_unchanged (routes : Routes) (outletName : string) :
  Forall (fun r => getOutlet r = outletName) routes \/
  Forall (fun r => getOutlet r <> outletName) routes ->
  sortByMatchingOutlets routes outletName = routes.
Proof.
  unfold sortByMatchingOutlets; cbv zeta. intros [Hall | Hnone].
  - rewrite (filter_all (fun r => getOutlet r = outletName) _ Hall).
    rewrite (filter_none (fun r => getOutlet r <> outletName));
      [apply app_nil_r|].
    eapply Forall_impl; [exact Hall|]. intros r Hr Hn. exact (Hn Hr).
  - rewrite (filter_none (fun r => getOutlet r = outletName) _ Hnone).
    rewrite (filter_all (fun r => getOutlet r <> outletName) _ Hnone).
    reflexivity.
Qed.

Lemma sortByMatchingOutlets_unchanged_witness :
  sortByMatchingOutlets [leafRoute; shellRoute; blankRoute] "primary"
  = [leafRoute; shellRoute; blankRoute] /\
  sortByMatchingOutlets [leafRoute; shellRoute; blankRoute] "aux"
  = [leafRoute; shellRoute; blankRoute].
Proof.
  split; apply sortByMatchingOutlets_unchanged.
  - left. repeat constructor.
  - right. repeat constructor; discriminate.
Defined.

End OutletExtras.

(** * Further properties of the injector lookup *)

Section InjectorExtras.

(** A walk that finds nothing has passed only snapshots without
    injector. *)
Lemma walkParents_None_inv (chain : list ActivatedRouteSnapshot) :
  forall p, p :: ancestors p = chain ->
            walkParents p = None -> Forall noInjector chain.
Proof.
  induction chain as [|s chain IH]; intros p Hchain Hwalk; [discriminate|].
  injection Hchain as <- Hanc.
  destruct p as [route [q|]]; simpl in *.
  - destruct (route ≫= _loadedInjector) eqn:Hl; [discriminate|].
    destruct (route ≫= _injector) eqn:Hi; [discriminate|].
    subst chain. constructor; [split; assumption|].
    apply (IH q eq_refl Hwalk).
  - destruct (route ≫= _loadedInjector) eqn:Hl; [discriminate|].
    destruct (route ≫= _injector) eqn:Hi; [discriminate|].
    subst chain. constructor; [split; assumption | constructor].
Qed.

(** A walk that finds an injector found it on a snapshot of the chain. *)
Lemma walkParents_Some_inv (chain : list ActivatedRouteSnapshot)
    (i : EnvironmentInjector) :
  forall p, p :: ancestors p = chain ->
            walkParents p = Some i ->
            Exists (fun a => routeConfig a ≫= _loadedInjector = Some i \/
                             routeConfig a ≫= _injector = Some i) chain.
Proof.
  induction chain as [|s chain IH]; intros p Hchain Hwalk; [discriminate|].
  injection Hchain as <- Hanc.
  destruct p as [route up]; simpl in *.
  destruct (route ≫= _loadedInjector) eqn:Hl.
  { injection Hwalk as ->. apply Exists_cons_hd. left. exact Hl. }
  destruct (route ≫= _injector) eqn:Hi.
  { injection Hwalk as ->. apply Exists_cons_hd. right. exact Hi. }
  destruct up as [q|]; [|discriminate].
  subst chain. apply Exists_cons_tl, (IH q eq_refl Hwalk).
Qed.

(** X22.  [getClosestRouteInjector] finds nothing exactly when the
    snapshot's own node has no static-providers injector and no ancestor's
    node carries any injector; a lazy-loaded injector on the snapshot's
    own node does not count. *)
Theorem getClosestRouteInjector_None_iff (s : ActivatedRouteSnapshot) :
  getClosestRouteInjector (Some s) = None <->
  routeConfig s ≫= _injector = None /\ Forall noInjector (ancestors s).
Proof.
  unfold getClosestRouteInjector.
  destruct s as [route [p|]]; simpl.
  - destruct (route ≫= _injector) eqn:Hown.
    + split; [discriminate | intros [H _]; discriminate].
    + split.
      * intros Hwalk. split; [reflexivity|].
        apply (walkParents_None_inv _ p eq_refl Hwalk).
      * intros [_ Hnone]. apply walkParents_none. exact Hnone.
  - destruct (route ≫= _injector) eqn:Hown.
    + split; [discriminate | intros [H _]; discriminate].
    + split; [intros _; split; [reflexivity | constructor] | reflexivity].
Qed.

(** A node with only a lazy-loaded injector, below a root without
    injector: nothing is found. *)
Example getClosestRouteInjector_own_lazy_ignored :
  getClosestRouteInjector (Some lazyOnlySnapshot) = None /\
  getClosestRouteInjector
    (Some (mkSnapshot (Some leafRoute) (Some lazyOnlySnapshot)))
  = Some (Injector 7).
Proof. split; reflexivity. Qed.

(** X23.  The injector returned is never made up: it is the
    static-providers injector of the snapshot's own node, or an injector
    (lazy-loaded or static) carried by the node of one of its
    ancestors. *)
Theorem getClosestRouteInjector_provenance
    (s : ActivatedRouteSnapshot) (i : EnvironmentInjector) :
  getClosestRouteInjector (Some s) = Some i ->
  routeConfig s ≫= _injector = Some i \/
  Exists (fun a => routeConfig a ≫= _loadedInjector = Some i \/
                   routeConfig a ≫= _injector = Some i) (ancestors s).
Proof.
  unfold getClosestRouteInjector.
  destruct s as [route up]; simpl.
  destruct (route ≫= _injector) eqn:Hown.
  - intros H. injection H as ->. left. reflexivity.
  - destruct up as [p|]; [|discriminate].
    intros Hwalk. right. apply (walkParents_Some_inv _ i p eq_refl Hwalk).
Qed.

Lemma getClosestRouteInjector_provenance_witness :
  routeConfig grandChildSnapshot ≫= _injector = Some (Injector 2) \/
  Exists (fun a => routeConfig a ≫= _loadedInjector = Some (Injector 2) \/
                   routeConfig a ≫= _injector = Some (Injector 2))
         (ancestors grandChildSnapshot).
Proof.
  apply (getClosestRouteInjector_provenance grandChildSnapshot (Injector 2)).
  reflexivity.
Defined.

(** X24.  Inheritance: a snapshot whose own node has no static-providers
    injector resolves to its parent's lazy-loaded injector when the
    parent's node has one, and otherwise to whatever its parent resolves
    to. *)
Theorem getClosestRouteInjector_inherits
    (s p : ActivatedRouteSnapshot) :
  routeConfig s ≫= _injector = None ->
  parent s = Some p ->
  getClosestRouteInjector (Some s)
  = match routeConfig p ≫= _loadedInjector with
    | Some lazy => Some lazy
    | None => getClosestRouteInjector (Some p)
    end.
Proof.
  intros Hown Hparent. unfold getClosestRouteInjector.
  rewrite Hown, Hparent.
  destruct p as [route up]; simpl.
  destruct (route ≫= _loadedInjector); [reflexivity|].
  destruct (route ≫= _injector); reflexivity.
Qed.

Lemma getClosestRouteInjector_inherits_witness :
  getClosestRouteInjector (Some grandChildSnapshot)
  = getClosestRouteInjector (Some childSnapshot) /\
  getClosestRouteInjector (Some childSnapshot) = Some (Injector 2).
Proof.
  split.
  - apply (getClosestRouteInjector_inherits grandChildSnapshot childSnapshot);
      reflexivity.
  - apply (getClosestRouteInjector_inherits childSnapshot lazySnapshot);
      reflexivity.
Defined.

End InjectorExtras.
